(** * Metadata filtering and expand/flatten converters of the Kubernetes provider

    A shallow embedding of the helper package [structures] (identifiers,
    metadata reconciliation, limit ranges, node selectors), of the namespace
    data source and of the retry loop of the default service account. *)

From Stdlib Require Import ZArith Ascii String.
From stdpp Require Import gmap strings list fin_maps pretty.

Local Open Scope string_scope.
Local Open Scope Z_scope.

(** ** Go values *)

(** A Go map is a reference: [None] is the nil map, [Some m] an allocated one.
    Reading a nil map behaves like reading an empty one. *)
Definition gomap (V : Type) : Type := option (gmap string V).

Definition go_lookup {V} (m : gomap V) (k : string) : option V :=
  match m with
  | Some g => g !! k
  | None => None
  end.

Definition go_len {V} (m : gomap V) : nat :=
  match m with
  | Some g => size g
  | None => 0%nat
  end.

(** The dynamic values that travel as [interface{}] through the provider.
    The constructor is the dynamic type, so a type assertion is a match. *)
#[warnings="-register-all"]
Inductive iface : Type :=
| INil                                        (* nil *)
| IString (s : string)                        (* string *)
| IInt (z : Z)                                (* int *)
| IInt64 (z : Z)                              (* int64 *)
| IBool (b : bool)                            (* bool *)
| IMap (m : gomap iface)                      (* map[string]interface{} *)
| ISlice (l : list iface)                     (* []interface{} *)
| ISliceMap (l : list (gmap string iface))    (* []map[string]interface{} *)
| ISliceString (l : list string)              (* []string *)
| IStringMap (m : gomap string)               (* map[string]string *)
| ISet (items : list iface).                  (* pointer to schema.Set built from items *)

(** [m[k]] on a [map[string]interface{}]: the nil interface when absent. *)
Definition go_index (m : gomap iface) (k : string) : iface :=
  default INil (go_lookup m k).

(** A run either returns or panics (a failed single-value type assertion). *)
Inductive outcome (A : Type) : Type :=
| Ret (a : A)
| Panic.
Arguments Ret {A} a.
Arguments Panic {A}.

#[global] Instance outcome_ret : MRet outcome := fun A a => Ret a.
#[global] Instance outcome_bind : MBind outcome := fun A B f m =>
  match m with
  | Ret a => f a
  | Panic => Panic
  end.

#[global] Instance outcome_fmap : FMap outcome := fun A B f m =>
  match m with
  | Ret a => Ret (f a)
  | Panic => Panic
  end.

(** Single-value assertions [v.(T)] panic on another dynamic type. *)
Definition assert_string (v : iface) : outcome string :=
  match v with IString s => Ret s | _ => Panic end.

Definition assert_map (v : iface) : outcome (gomap iface) :=
  match v with IMap m => Ret m | _ => Panic end.

Definition assert_slice (v : iface) : outcome (list iface) :=
  match v with ISlice l => Ret l | _ => Panic end.

Definition assert_set (v : iface) : outcome (list iface) :=
  match v with ISet items => Ret items | _ => Panic end.

(** Comma-ok assertions [v, ok := x.(T)] never panic. *)
Definition map_ok (v : iface) : option (gomap iface) :=
  match v with IMap m => Some m | _ => None end.

Definition slice_ok (v : iface) : option (list iface) :=
  match v with ISlice l => Some l | _ => None end.

(** [out := make([]T, len(s)); for i, v := range s { out[i] = f(i, v) }] *)
Definition fill_by_index {A B} (zero : B) (f : nat -> A -> outcome B)
    (s : list A) : outcome (list B) :=
  foldl (fun acc iv => out ← acc; x ← f iv.1 iv.2; mret (<[iv.1 := x]> out))
        (mret (replicate (length s) zero)) (imap pair s).

(** The same loop when the body cannot panic. *)
Definition fill_pure {A B} (zero : B) (f : A -> B) (s : list A) : list B :=
  foldl (fun out iv => <[iv.1 := f iv.2]> out)
        (replicate (length s) zero) (imap pair s).

(** ** Packages outside the repository *)

(** Go's [error] values and [fmt.Errorf]. *)
Class GoErrors := {
  error : Type;
  fmt_Errorf : string -> list iface -> error
}.

(** [net/url]: [url_Parse s] is [None] when [url.Parse] returns an error. *)
Class NetURL := {
  URL : Type;
  url_Parse : string -> option URL;
  Hostname : URL -> string
}.

(** [regexp.MatchString(pattern, s)] returns [(matched, err)]. *)
Class Regexp `{GoErrors} := {
  regexp_MatchString : string -> string -> bool * option error
}.

(** [k8s.io/apimachinery/pkg/api/resource]. *)
Class Quantities `{GoErrors} := {
  Quantity : Type;
  resource_NewQuantity : Z -> Quantity;       (* with resource.DecimalExponent *)
  resource_ParseQuantity : string -> Quantity + error
}.

(** The [List] method of the [schema.Set] built from the given items. *)
Class SchemaSets := {
  Set_List : list iface -> list iface
}.

(** ** Package strings *)

Definition strings_HasPrefix (s prefix : string) : bool := String.prefix prefix s.

Definition strings_HasSuffix (s suffix : string) : bool :=
  (String.length suffix <=? String.length s)%nat &&
  String.eqb
    (substring (String.length s - String.length suffix) (String.length suffix) s)
    suffix.

Fixpoint strings_Contains (s substr : string) : bool :=
  String.prefix substr s ||
  match s with
  | EmptyString => false
  | String _ s' => strings_Contains s' substr
  end.

(** [strings.Split(s, sep)] for a separator of one byte. *)
Fixpoint strings_Split (s : string) (sep : ascii) : list string :=
  match s with
  | EmptyString => [EmptyString]
  | String c s' =>
      if Ascii.eqb c sep then EmptyString :: strings_Split s' sep
      else match strings_Split s' sep with
           | p :: ps => String c p :: ps
           | [] => [String c EmptyString]
           end
  end.

(** ** Object metadata and identifiers *)

Record ObjectMeta := {
  Name : string;
  GenerateName : string;
  Namespace : string;
  ResourceVersion : string;
  UID : string;
  Generation : Z;
  Labels : gomap string;
  Annotations : gomap string
}.

Definition ObjectMeta_zero : ObjectMeta :=
  {| Name := ""; GenerateName := ""; Namespace := ""; ResourceVersion := "";
     UID := ""; Generation := 0; Labels := None; Annotations := None |}.

Section Identifiers.
Context `{GoErrors}.

Definition IdParts (id : string) : string * string * option error :=
  let parts := strings_Split id "/" in
  if negb (length parts =? 2)%nat then
    let err := fmt_Errorf "Unexpected ID format (%q), expected %q."
                          [IString id; IString "namespace/name"] in
    ("", "", Some err)
  else (nth 0 parts "", nth 1 parts "", None).

Definition BuildId (meta : ObjectMeta) : string :=
  Namespace meta ++ "/" ++ Name meta.
End Identifiers.

(** ** Expanders *)

Definition ExpandStringMap (m : gomap iface) : outcome (gmap string string) :=
  match m with
  | None => Ret ∅
  | Some g =>
      map_fold (fun k v acc => result ← acc; s ← assert_string v;
                               mret (<[k := s]> result))
               (Ret ∅) g
  end.

Definition ExpandStringSlice (s : list iface) : outcome (list string) :=
  fill_by_index ""
    (fun _ v =>
       (* Handle the Terraform parser bug which turns empty strings in lists to nil. *)
       match v with
       | INil => Ret ""
       | _ => assert_string v
       end) s.

Definition ExpandMetadata (in_ : list iface) : outcome ObjectMeta :=
  if (length in_ <? 1)%nat then Ret ObjectMeta_zero else
  m ← assert_map (nth 0 in_ INil);
  annotations ←
    match map_ok (go_index m "annotations") with
    | Some v => if (0 <? go_len v)%nat
                then (g ← ExpandStringMap v; Ret (Some g))
                else Ret None
    | None => Ret None
    end;
  labels ←
    match map_ok (go_index m "labels") with
    | Some v => if (0 <? go_len v)%nat
                then (g ← ExpandStringMap v; Ret (Some g))
                else Ret None
    | None => Ret None
    end;
  generate_name ←
    match go_lookup m "generate_name" with
    | Some v => assert_string v
    | None => Ret ""
    end;
  name ←
    match go_lookup m "name" with
    | Some v => assert_string v
    | None => Ret ""
    end;
  namespace ←
    match go_lookup m "namespace" with
    | Some v => assert_string v
    | None => Ret ""
    end;
  Ret {| Name := name; GenerateName := generate_name; Namespace := namespace;
         ResourceVersion := ""; UID := ""; Generation := 0;
         Labels := labels; Annotations := annotations |}.

(** ** Resource data and provider metadata *)

(** The part of [schema.ResourceData] the provider code reads and writes
    itself: the resource ID and the attribute reader [d.Get]. *)
Record ResourceData := {
  rd_Id : string;
  rd_Get : string -> iface
}.

Definition SetId (id : string) (d : ResourceData) : ResourceData :=
  {| rd_Id := id; rd_Get := rd_Get d |}.

(** [d.Set(key, value)] belongs to the plugin SDK: it validates the value
    against the schema and writes it, or returns an error. *)
Class PluginSDK `{GoErrors} := {
  rd_Set : string -> iface -> ResourceData -> option error * ResourceData
}.

Record NamespaceSpec := {
  Finalizers : list string
}.

Record Namespace_ := {
  ns_ObjectMeta : ObjectMeta;
  ns_Spec : NamespaceSpec
}.

Section Provider.
Context `{GoErrors}.

(** What the code uses of [*kubernetes.Clientset]. *)
Record Clientset := {
  Namespaces_Get : string -> Namespace_ + error
}.

(** Interface [provider.KubeClientsets]. *)
Record KubeClientsets := {
  MainClientset : Clientset + error;
  ConfigData : ResourceData
}.

(** The [meta interface{}] handed to every CRUD function. *)
Inductive meta_value : Type :=
| MetaClientsets (k : KubeClientsets)
| MetaOther (v : iface).

Definition assert_KubeClientsets (meta : meta_value) : outcome KubeClientsets :=
  match meta with
  | MetaClientsets k => Ret k
  | MetaOther _ => Panic
  end.
End Provider.

(** ** Metadata reconciliation *)

Definition IsKeyInMap (key : string) (d : gomap iface) : bool :=
  match d with
  | None => false
  | Some g => existsb (fun k => String.eqb k key) (map_to_list g).*1
  end.

Section InternalKeys.
Context `{NetURL}.

Definition IsInternalKey (annotationKey : string) : bool :=
  match url_Parse ("//" ++ annotationKey) with
  | None => false
  | Some u =>
      (* allow user specified application specific keys *)
      if String.eqb (Hostname u) "app.kubernetes.io" then false
      (* allow AWS load balancer configuration annotations *)
      else if String.eqb (Hostname u) "service.beta.kubernetes.io" then false
      (* internal *.kubernetes.io keys *)
      else if strings_HasSuffix (Hostname u) "kubernetes.io" then true
      (* Specific to DaemonSet annotations, generated & controlled by the server. *)
      else if strings_Contains annotationKey
                "deprecated.daemonset.template.generation" then true
      else false
  end.

(** The loop deletes from the map it ranges over.  Go visits every entry
    that is still present exactly once, in an unspecified order; only the
    entry being visited is ever deleted. *)
Definition removeInternalKeys (m : gomap string) (d : gomap iface) : gomap string :=
  match m with
  | None => None
  | Some g =>
      Some (map_fold (fun k _ acc =>
                        if IsInternalKey k && negb (IsKeyInMap k d)
                        then delete k acc else acc) g g)
  end.
End InternalKeys.

Section IgnoredKeys.
Context `{Regexp}.

Fixpoint ignoreKey (key : string) (expressions : list string) : bool :=
  match expressions with
  | [] => false
  | e :: expressions' =>
      if (regexp_MatchString e key).1 then true
      else ignoreKey key expressions'
  end.

Definition removeKeys (m : gomap string) (d : gomap iface)
    (ignoreKubernetesMetadataKeys : list string) : gomap string :=
  match m with
  | None => None
  | Some g =>
      Some (map_fold (fun k _ acc =>
                        if ignoreKey k ignoreKubernetesMetadataKeys
                           && negb (IsKeyInMap k d)
                        then delete k acc else acc) g g)
  end.
End IgnoredKeys.

Section Flatten.
Context `{NetURL} `{Regexp}.

(** [meta.Annotations] and [meta.Labels] are filtered in place and the
    filtered maps are what the result holds. *)
Definition FlattenMetadata (meta : ObjectMeta) (d : ResourceData)
    (providerMetadata : meta_value) (metaPrefix : list string)
    : outcome (list iface) :=
  let m : gmap string iface := ∅ in
  let prefix := match metaPrefix with p :: _ => p | [] => "" end in
  configAnnotations ← assert_map (rd_Get d (prefix ++ "metadata.0.annotations"));
  clients ← assert_KubeClientsets providerMetadata;
  ignoreAnnotations ←
    match slice_ok (rd_Get (ConfigData clients) "ignore_annotations") with
    | Some v => ExpandStringSlice v
    | None => Ret []
    end;
  let annotations := removeInternalKeys (Annotations meta) configAnnotations in
  let m := <["annotations" :=
               IStringMap (removeKeys annotations configAnnotations ignoreAnnotations)]> m in
  let m := if negb (String.eqb (GenerateName meta) "")
           then <["generate_name" := IString (GenerateName meta)]> m else m in
  configLabels ← assert_map (rd_Get d (prefix ++ "metadata.0.labels"));
  clients ← assert_KubeClientsets providerMetadata;
  ignoreLabels ←
    match slice_ok (rd_Get (ConfigData clients) "ignore_labels") with
    | Some v => ExpandStringSlice v
    | None => Ret []
    end;
  let labels := removeInternalKeys (Labels meta) configLabels in
  let m := <["labels" := IStringMap (removeKeys labels configLabels ignoreLabels)]> m in
  let m := <["name" := IString (Name meta)]> m in
  let m := <["resource_version" := IString (ResourceVersion meta)]> m in
  let m := <["uid" := IString (UID meta)]> m in
  let m := <["generation" := IInt64 (Generation meta)]> m in
  let m := if negb (String.eqb (Namespace meta) "")
           then <["namespace" := IString (Namespace meta)]> m else m in
  Ret [IMap (Some m)].
End Flatten.

(** ** Limit ranges *)

Section LimitRanges.
Context `{Quantities}.

(** The loop returns at the first value it cannot convert; which entry
    that is depends on the order in which Go visits the map. *)
Definition ExpandMapToResourceList (m : gomap iface)
    : gmap string Quantity * option error :=
  match m with
  | None => (∅, None)
  | Some g =>
      map_fold (fun stringKey origValue acc =>
                  match acc with
                  | (_, Some _) => acc
                  | (out, None) =>
                      match origValue with
                      | IInt v => (<[stringKey := resource_NewQuantity v]> out, None)
                      | IString v =>
                          match resource_ParseQuantity v with
                          | inl value => (<[stringKey := value]> out, None)
                          | inr err => (out, Some err)
                          end
                      | _ => (out, Some (fmt_Errorf "Unexpected value type: %#v"
                                                    [origValue]))
                      end
                  end) (∅, None) g
  end.

Record LimitRangeItem := {
  Type_ : string;
  Max : gomap Quantity;
  Min : gomap Quantity;
  Default : gomap Quantity;
  DefaultRequest : gomap Quantity;
  MaxLimitRequestRatio : gomap Quantity
}.

Record LimitRangeSpec := {
  Limits : list LimitRangeItem
}.

Definition LimitTypePod : string := "Pod".

(** Sequencing of steps that may panic or make the function return an error. *)
Definition try_bind {A B} (m : outcome (A + error))
    (f : A -> outcome (B + error)) : outcome (B + error) :=
  a ← m; match a with inl x => f x | inr err => Ret (inr err) end.

(** [if v, ok := limit[key]; ok { el, err := ExpandMapToResourceList(...) }] *)
Definition expand_limit_field (limit : gomap iface) (key : string)
    : outcome (gomap Quantity + error) :=
  match go_lookup limit key with
  | Some v =>
      vm ← assert_map v;
      match ExpandMapToResourceList vm with
      | (_, Some err) => Ret (inr err)
      | (el, None) => Ret (inl (Some el))
      end
  | None => Ret (inl None)
  end.

(** The [default_request] step of an iteration, once the type is known. *)
Definition expand_default_request (isNew : bool) (i : nat) (type : string)
    (limit : gomap iface) : outcome (gomap Quantity + error) :=
  (* defaultRequest is forbidden for Pod limits, even though it's set &
     returned by API; this is how we avoid sending it back *)
  match go_lookup limit "default_request" with
  | Some v =>
      drm ← assert_map v;
      if String.eqb type LimitTypePod && (0 <? go_len drm)%nat then
        if isNew
        then Ret (inr (fmt_Errorf
                         "limit.%d.default_request cannot be set for Pod limit"
                         [IInt (Z.of_nat i)]))
        else Ret (inl None)
      else
        match ExpandMapToResourceList drm with
        | (_, Some err) => Ret (inr err)
        | (el, None) => Ret (inl (Some el))
        end
  | None => Ret (inl None)
  end.

(** One iteration of the loop over the limits. *)
Definition expand_limit (isNew : bool) (i : nat) (l : iface)
    : outcome (LimitRangeItem + error) :=
  limit ← assert_map l;
  type ← match go_lookup limit "type" with
         | Some v => assert_string v
         | None => Ret ""
         end;
  try_bind (expand_default_request isNew i type limit) (fun defaultRequest =>
  try_bind (expand_limit_field limit "default") (fun default_ =>
  try_bind (expand_limit_field limit "max") (fun max =>
  try_bind (expand_limit_field limit "max_limit_request_ratio") (fun ratio =>
  try_bind (expand_limit_field limit "min") (fun min =>
  Ret (inl {| Type_ := type; Max := max; Min := min; Default := default_;
              DefaultRequest := defaultRequest;
              MaxLimitRequestRatio := ratio |})))))).

Fixpoint expand_limits (isNew : bool) (i : nat) (limits : list iface)
    : outcome (list LimitRangeItem + error) :=
  match limits with
  | [] => Ret (inl [])
  | l :: limits' =>
      try_bind (expand_limit isNew i l) (fun lrItem =>
      try_bind (expand_limits isNew (S i) limits') (fun newLimits =>
      Ret (inl (lrItem :: newLimits))))
  end.

Definition ExpandLimitRangeSpec (s : list iface) (isNew : bool)
    : outcome (LimitRangeSpec * option error) :=
  let out := {| Limits := [] |} in
  if (length s <? 1)%nat then Ret (out, None) else
  match nth 0 s INil with
  | INil => Ret (out, None)
  | s0 =>
      m ← assert_map s0;
      match slice_ok (go_index m "limit") with
      | Some limits =>
          r ← expand_limits isNew 0 limits;
          match r with
          | inl newLimits => Ret ({| Limits := newLimits |}, None)
          | inr err => Ret (out, Some err)
          end
      | None => Ret (out, None)
      end
  end.
End LimitRanges.

(** ** Node selectors (package v1) *)

Record NodeSelectorRequirement := {
  Key : string;
  Operator : string;
  Values : list string
}.

(** Slices are lists: the nil slice and the empty slice are both [[]]. *)
Record NodeSelectorTerm := {
  MatchExpressions : list NodeSelectorRequirement;
  MatchFields : list NodeSelectorRequirement
}.

Definition NodeSelectorRequirement_zero : NodeSelectorRequirement :=
  {| Key := ""; Operator := ""; Values := [] |}.

Definition NodeSelectorTerm_zero : NodeSelectorTerm :=
  {| MatchExpressions := []; MatchFields := [] |}.

Definition NewStringSet (in_ : list string) : iface :=
  ISet (fill_pure INil IString in_).

Definition flattenNodeSelectorRequirementList (in_ : list NodeSelectorRequirement)
    : list (gmap string iface) :=
  fill_pure ∅
    (fun v =>
       let m : gmap string iface := ∅ in
       let m := <["key" := IString (Key v)]> m in
       let m := <["values" := NewStringSet (Values v)]> m in
       let m := <["operator" := IString (Operator v)]> m in
       m) in_.

Definition flattenNodeSelectorTerm (in_ : NodeSelectorTerm) : list iface :=
  let att : gmap string iface := ∅ in
  let att := if (0 <? length (MatchExpressions in_))%nat
             then <["match_expressions" :=
                      ISliceMap (flattenNodeSelectorRequirementList (MatchExpressions in_))]> att
             else att in
  let att := if (0 <? length (MatchFields in_))%nat
             then <["match_fields" :=
                      ISliceMap (flattenNodeSelectorRequirementList (MatchFields in_))]> att
             else att in
  [IMap (Some att)].

Definition flattenNodeSelectorTerms (in_ : list NodeSelectorTerm) : list iface :=
  fill_pure INil (fun n => nth 0 (flattenNodeSelectorTerm n) INil) in_.

Section NodeSelectors.
Context `{SchemaSets}.

Definition expandNodeSelectorRequirementList (in_ : list iface)
    : outcome (list NodeSelectorRequirement) :=
  if (length in_ <? 1)%nat then Ret [] else
  fill_by_index NodeSelectorRequirement_zero
    (fun _ c =>
       p ← assert_map c;
       key ← assert_string (go_index p "key");
       operator ← assert_string (go_index p "operator");
       set ← assert_set (go_index p "values");
       values ← ExpandStringSlice (Set_List set);
       Ret {| Key := key; Operator := operator; Values := values |}) in_.

Definition expandNodeSelectorTerm (l : list iface) : outcome NodeSelectorTerm :=
  if (length l =? 0)%nat then Ret NodeSelectorTerm_zero else
  match nth 0 l INil with
  | INil => Ret NodeSelectorTerm_zero
  | l0 =>
      in_ ← assert_map l0;
      matchExpressions ←
        match slice_ok (go_index in_ "match_expressions") with
        | Some v => if (0 <? length v)%nat
                    then expandNodeSelectorRequirementList v else Ret []
        | None => Ret []
        end;
      matchFields ←
        match slice_ok (go_index in_ "match_fields") with
        | Some v => if (0 <? length v)%nat
                    then expandNodeSelectorRequirementList v else Ret []
        | None => Ret []
        end;
      Ret {| MatchExpressions := matchExpressions; MatchFields := matchFields |}
  end.

Definition expandNodeSelectorTerms (l : list iface) : outcome (list NodeSelectorTerm) :=
  if (length l =? 0)%nat then Ret [] else
  match nth 0 l INil with
  | INil => Ret []
  | _ => fill_by_index NodeSelectorTerm_zero
           (fun _ n => expandNodeSelectorTerm [n]) l
  end.
End NodeSelectors.

(** ** Default service account: waiting for the account to exist *)

(** [k8s.io/apimachinery/pkg/api/errors]. *)
Class ApiErrors `{GoErrors} := {
  errors_IsNotFound : error -> bool
}.

(** The error [WaitForStateContext] reports when the timeout expires. *)
Class RetryTimeout `{GoErrors} := {
  wait_TimeoutError : error
}.

Record ServiceAccount := {
  sa_ObjectMeta : ObjectMeta
}.

Section Retry.
Context `{ApiErrors} `{!RetryTimeout}.

Record RetryError := {
  Err : error;
  Retryable : bool
}.

Definition resource_RetryableError (err : error) : option RetryError :=
  Some {| Err := err; Retryable := true |}.

Definition resource_NonRetryableError (err : error) : option RetryError :=
  Some {| Err := err; Retryable := false |}.

(** The function literal that [resourceKubernetesDefaultServiceAccountCreate]
    hands to [resource.RetryContext]; [get] is what the [Get] call of the
    service account returned in this attempt. *)
Definition defaultServiceAccountCreate_retryFunc (get : ServiceAccount + error)
    : option RetryError :=
  match get with
  | inr err =>
      if errors_IsNotFound err then resource_RetryableError err
      else resource_NonRetryableError err
  | inl _ => None
  end.

(** [resource.RetryContext] of the plugin SDK: it calls [f] again while the
    result is retryable and the timeout has not expired.  [attempts] is the
    number of calls that fit in the timeout, [f n] the result of call [n],
    [resultErr] the error of the last call. *)
Fixpoint retry_loop (attempts : nat) (f : nat -> option RetryError) (n : nat)
    (resultErr : option error) : option error :=
  match attempts with
  | O => match resultErr with
         | None => Some wait_TimeoutError
         | Some err => Some err
         end
  | S attempts' =>
      match f n with
      | None => None
      | Some rerr =>
          if Retryable rerr
          then retry_loop attempts' f (S n) (Some (Err rerr))
          else Some (Err rerr)
      end
  end.

Definition resource_RetryContext (attempts : nat) (f : nat -> option RetryError)
    : option error :=
  retry_loop attempts f 0%nat None.

(** The existence check of [resourceKubernetesDefaultServiceAccountCreate]:
    [gets n] is the answer of the API server to the [n]-th [Get]. *)
Definition defaultServiceAccountCreate_wait (attempts : nat)
    (gets : nat -> ServiceAccount + error) : option error :=
  resource_RetryContext attempts
    (fun n => defaultServiceAccountCreate_retryFunc (gets n)).
End Retry.

(** ** Namespace data source *)

(** The calls a read makes, in order, each with whether it succeeded. *)
Inductive event : Type :=
| EvMainClientset (ok : bool)
| EvSetId (id : string)
| EvNamespacesGet (name : string) (ok : bool)
| EvSet (key : string) (ok : bool).


Definition flattenNamespaceSpec (in_ : option NamespaceSpec) : list iface :=
  match in_ with
  | None => []
  | Some spec =>
      if (length (Finalizers spec) =? 0)%nat then [] else
      let fin := fill_pure "" (fun f : string => f) (Finalizers spec) in
      let spec : gmap string iface := <["finalizers" := ISliceString fin]> ∅ in
      [IMap (Some spec)]
  end.

Section NamespaceDataSource.
Context `{NetURL} `{Regexp} `{!PluginSDK}.

Inductive Diagnostic : Type :=
| DiagError (err : error).

Definition diag_FromErr (err : error) : list Diagnostic := [DiagError err].

(** Returns the diagnostics, the resource data as the run leaves it and the
    calls made. *)
Definition dataSourceKubernetesNamespaceRead (d : ResourceData) (meta : meta_value)
    : outcome (list Diagnostic * ResourceData * list event) :=
  clients ← assert_KubeClientsets meta;
  match MainClientset clients with
  | inr err => Ret (diag_FromErr err, d, [EvMainClientset false])
  | inl conn =>
      let log := [EvMainClientset true] in
      in_ ← assert_slice (rd_Get d "metadata");
      metadata ← ExpandMetadata in_;
      let d := SetId (Name metadata) d in
      let log := (log ++ [EvSetId (Name metadata)])%list in
      match Namespaces_Get conn (Name metadata) with
      | inr err =>
          Ret (diag_FromErr err, d, (log ++ [EvNamespacesGet (Name metadata) false])%list)
      | inl namespace =>
          let log := (log ++ [EvNamespacesGet (Name metadata) true])%list in
          flat ← FlattenMetadata (ns_ObjectMeta namespace) d meta [];
          match rd_Set "metadata" (ISlice flat) d with
          | (Some err, d) => Ret (diag_FromErr err, d, (log ++ [EvSet "metadata" false])%list)
          | (None, d) =>
              let log := (log ++ [EvSet "metadata" true])%list in
              match rd_Set "spec"
                      (ISlice (flattenNamespaceSpec (Some (ns_Spec namespace)))) d with
              | (Some err, d) => Ret (diag_FromErr err, d, (log ++ [EvSet "spec" false])%list)
              | (None, d) => Ret ([], d, (log ++ [EvSet "spec" true])%list)
              end
          end
      end
  end.
End NamespaceDataSource.

(** ** Reference implementations of the outside packages

    The theorems below hold for every implementation of the classes above.
    The definitions of this part make the code runnable on concrete inputs. *)

(** *** net/url

    What [url.Parse] does with a raw URL that starts with a slash, which is
    all [IsInternalKey] ever passes: there is no scheme, the authority runs
    from the two leading slashes to the next one, and a host with a malformed
    percent escape or a byte that a host cannot hold is refused.  IPv6 zone
    identifiers are not told apart from the rest of a bracketed host. *)

Record GoURL := {
  Host : string;
  Path : string;
  RawQuery : string;
  Fragment : string
}.

Definition byte_in (c : ascii) (set : string) : bool :=
  existsb (Ascii.eqb c) (list_ascii_of_string set).

Definition is_digit (c : ascii) : bool :=
  let n := nat_of_ascii c in (48 <=? n)%nat && (n <=? 57)%nat.

Definition is_alnum (c : ascii) : bool :=
  let n := nat_of_ascii c in
  is_digit c || (97 <=? n)%nat && (n <=? 122)%nat || (65 <=? n)%nat && (n <=? 90)%nat.

Definition ishex (c : ascii) : bool :=
  let n := nat_of_ascii c in
  is_digit c || (97 <=? n)%nat && (n <=? 102)%nat || (65 <=? n)%nat && (n <=? 70)%nat.

Definition unhex (c : ascii) : nat :=
  let n := nat_of_ascii c in
  if is_digit c then n - 48
  else if (97 <=? n)%nat then n - 97 + 10
  else n - 65 + 10.

Fixpoint stringContainsCTLByte (s : string) : bool :=
  match s with
  | EmptyString => false
  | String c s' =>
      (nat_of_ascii c <? 32)%nat || (nat_of_ascii c =? 127)%nat
      || stringContainsCTLByte s'
  end.

(** [strings.Cut] at the first [sep]: the text before it and the text after it. *)
Fixpoint strings_Cut (s : string) (sep : ascii) : string * string :=
  match s with
  | EmptyString => (EmptyString, EmptyString)
  | String c s' =>
      if Ascii.eqb c sep then (EmptyString, s')
      else let '(before, after) := strings_Cut s' sep in (String c before, after)
  end.

(** The text before the first slash and the text from that slash on. *)
Fixpoint split_at_slash (s : string) : string * string :=
  match s with
  | EmptyString => (EmptyString, EmptyString)
  | String c s' =>
      if Ascii.eqb c "/" then (EmptyString, s)
      else let '(before, rest) := split_at_slash s' in (String c before, rest)
  end.

(** The texts around the last [sep], when there is one. *)
Fixpoint cut_last (s : string) (sep : ascii) : option (string * string) :=
  match s with
  | EmptyString => None
  | String c s' =>
      match cut_last s' sep with
      | Some (before, after) => Some (String c before, after)
      | None => if Ascii.eqb c sep then Some (EmptyString, s') else None
      end
  end.

(** A host byte that needs no escaping: letters, digits, the marks and the
    sub-delimiters, the colon, brackets, angle brackets and the double quote. *)
Definition host_byte_ok (c : ascii) : bool :=
  (128 <=? nat_of_ascii c)%nat || is_alnum c
  || byte_in c "!$&'()*+,;=:[]<>-_.~" || (nat_of_ascii c =? 34)%nat.

(** The checking pass of [unescape], in host mode or in any other mode. *)
Fixpoint escapes_ok (host_mode : bool) (s : string) : bool :=
  match s with
  | EmptyString => true
  | String c rest =>
      if Ascii.eqb c "%" then
        match rest with
        | String a (String b rest') =>
            ishex a && ishex b
            && (negb host_mode || negb (unhex a <? 8)%nat
                || Ascii.eqb a "2" && Ascii.eqb b "5")
            && escapes_ok host_mode rest'
        | _ => false
        end
      else (negb host_mode || host_byte_ok c) && escapes_ok host_mode rest
  end.

(** The rewriting pass of [unescape] on a string that passed the check. *)
Fixpoint unescape_bytes (s : string) : string :=
  match s with
  | EmptyString => EmptyString
  | String c rest =>
      if Ascii.eqb c "%" then
        match rest with
        | String a (String b rest') =>
            String (ascii_of_nat (16 * unhex a + unhex b)) (unescape_bytes rest')
        | _ => s
        end
      else String c (unescape_bytes rest)
  end.

Definition all_digits (s : string) : bool :=
  forallb is_digit (list_ascii_of_string s).

Definition validUserinfo (s : string) : bool :=
  forallb (fun c => is_alnum c || byte_in c "-._:~!$&'()*+,;=%@")
          (list_ascii_of_string s).

Definition parseHost (host : string) : option string :=
  let port_ok :=
    if strings_HasPrefix host "["
    then match cut_last host "]" with
         | None => false
         | Some (_, colonPort) =>
             match colonPort with
             | EmptyString => true
             | String c port => Ascii.eqb c ":" && all_digits port
             end
         end
    else match cut_last host ":" with
         | None => true
         | Some (_, port) => all_digits port
         end in
  if port_ok && escapes_ok true host then Some (unescape_bytes host) else None.

Definition parseAuthority (authority : string) : option string :=
  match cut_last authority "@" with
  | None => parseHost authority
  | Some (userinfo, host) =>
      match parseHost host with
      | None => None
      | Some h =>
          if validUserinfo userinfo && escapes_ok false userinfo
          then Some h else None
      end
  end.

Definition go_url_Parse (rawURL : string) : option GoURL :=
  let '(u, frag) := strings_Cut rawURL "#" in
  if stringContainsCTLByte u then None else
  let '(rest, query) := strings_Cut u "?" in
  let parsed :=
    if negb (strings_HasPrefix rest "///") && strings_HasPrefix rest "//"
    then let '(authority, path) := split_at_slash (substring 2 (String.length rest) rest) in
         match parseAuthority authority with
         | Some host => Some (host, path)
         | None => None
         end
    else Some (EmptyString, rest) in
  match parsed with
  | None => None
  | Some (host, path) =>
      if escapes_ok false path && escapes_ok false frag
      then Some {| Host := host; Path := unescape_bytes path;
                   RawQuery := query; Fragment := unescape_bytes frag |}
      else None
  end.

Definition go_url_Hostname (u : GoURL) : string :=
  let host :=
    match cut_last (Host u) ":" with
    | Some (h, port) => if all_digits port then h else Host u
    | None => Host u
    end in
  if strings_HasPrefix host "[" && strings_HasSuffix host "]"
  then substring 1 (String.length host - 2) host
  else host.

Definition go_net_url : NetURL :=
  {| URL := GoURL; url_Parse := go_url_Parse; Hostname := go_url_Hostname |}.

(** *** Errors, regular expressions, quantities, sets, the SDK *)

(** Errors as their format strings. *)
Definition string_errors : GoErrors :=
  {| error := string; fmt_Errorf := fun format _ => format |}.

(** [regexp.MatchString] on a pattern without metacharacters: the pattern
    matches when it occurs somewhere in the string. *)
Definition literal_regexp : @Regexp string_errors :=
  {| regexp_MatchString := fun pattern s => (strings_Contains s pattern, None) |}.

(** Quantities that are plain decimal integers. *)
Definition parse_decimal (s : string) : option Z :=
  match s with
  | EmptyString => None
  | _ => if all_digits s
         then Some (fold_left (fun acc c => 10 * acc + Z.of_nat (nat_of_ascii c - 48))
                              (list_ascii_of_string s) 0)
         else None
  end.

Definition decimal_quantities : @Quantities string_errors :=
  {| Quantity := Z;
     resource_NewQuantity := fun v => v;
     resource_ParseQuantity := fun s =>
       match parse_decimal s with
       | Some q => inl q
       | None => inr ("quantities must match the regular expression"
                      : @error string_errors)
       end |}.

(** A set that lists its items as they were given. *)
Definition listing_sets : SchemaSets :=
  {| Set_List := fun items => items |}.

(** An SDK that accepts every value and stores it under its key. *)
Definition storing_sdk : @PluginSDK string_errors :=
  {| rd_Set := fun key value d =>
       (None, {| rd_Id := rd_Id d;
                 rd_Get := fun k => if String.eqb k key then value else rd_Get d k |}) |}.

(** An SDK whose schema refuses every value. *)
Definition refusing_sdk : @PluginSDK string_errors :=
  {| rd_Set := fun key value d => (Some ("Invalid address to set" : @error string_errors), d) |}.

(** Only errors whose text is [not found] count as NotFound. *)
Definition text_api_errors : @ApiErrors string_errors :=
  {| errors_IsNotFound := fun err : @error string_errors => String.eqb err "not found" |}.

Definition text_timeout : @RetryTimeout string_errors :=
  {| wait_TimeoutError := ("timeout while waiting for state" : @error string_errors) |}.

(** ** Loops as recursive functions *)

(** What [fill_by_index] computes, element after element. *)
Fixpoint outcome_imap {A B} (f : nat -> A -> outcome B) (i : nat) (s : list A)
    : outcome (list B) :=
  match s with
  | [] => Ret []
  | x :: s' => y ← f i x; r ← outcome_imap f (S i) s'; Ret (y :: r)
  end.

(** The string an element of a list of strings stands for. *)
Definition string_of (v : iface) : string :=
  match v with
  | IString x => x
  | _ => ""
  end.

Definition nil_or_string (v : iface) : bool :=
  match v with
  | INil | IString _ => true
  | _ => false
  end.

(** A provider setting such as [ignore_annotations]: when it is a list, its
    elements are strings (or nil, for an empty string). *)
Definition ignore_list_ok (v : iface) : bool :=
  match slice_ok v with
  | Some l => forallb nil_or_string l
  | None => true
  end.

Definition ignore_list (v : iface) : list string :=
  match slice_ok v with
  | Some l => map string_of l
  | None => []
  end.

(** ** Sample inputs *)

Definition sample_clients : @KubeClientsets string_errors :=
  {| MainClientset := inr ("no cluster" : @error string_errors);
     ConfigData :=
       {| rd_Id := "";
          rd_Get := fun k =>
            if String.eqb k "ignore_annotations" then ISlice [IString "cattle"]
            else if String.eqb k "ignore_labels" then ISlice [IString "team"]
            else INil |} |}.

(** The user configured one annotation, an internal one, and no label. *)
Definition sample_config_annotations : gomap iface :=
  Some {[ "node.kubernetes.io/role" := IString "edge" ]}.

Definition sample_data : ResourceData :=
  {| rd_Id := "";
     rd_Get := fun k =>
       if String.eqb k "metadata.0.annotations" then IMap sample_config_annotations
       else if String.eqb k "metadata.0.labels" then IMap (Some ∅)
       else INil |}.

Definition sample_meta : ObjectMeta :=
  {| Name := "web"; GenerateName := ""; Namespace := "prod";
     ResourceVersion := "41"; UID := "7d1"; Generation := 2;
     Labels := Some {[ "app" := "web"; "team-id" := "blue";
                       "topology.kubernetes.io/zone" := "a" ]};
     Annotations := Some {[ "node.kubernetes.io/role" := "edge";
                            "control-plane.alpha.kubernetes.io/leader" := "x";
                            "field.cattle.io/projectId" := "p1";
                            "owner" := "ops" ]} |}.

(** The number of slashes of an identifier. *)
Definition slashes (id : string) : nat :=
  length (filter (fun c => c = "/"%char) (list_ascii_of_string id)).

Definition sample_term : NodeSelectorTerm :=
  {| MatchExpressions := [{| Key := "zone"; Operator := "In"; Values := ["a"; "b"] |}];
     MatchFields := [] |}.

(** A namespace data source whose configuration names the namespace [prod]. *)
Definition sample_namespace_data : ResourceData :=
  {| rd_Id := "";
     rd_Get := fun k =>
       if String.eqb k "metadata"
       then ISlice [IMap (Some {[ "name" := IString "prod" ]})]
       else if String.eqb k "metadata.0.annotations" then IMap (Some ∅)
       else if String.eqb k "metadata.0.labels" then IMap (Some ∅)
       else INil |}.

Definition sample_namespace : Namespace_ :=
  {| ns_ObjectMeta :=
       {| Name := "prod"; GenerateName := ""; Namespace := "";
          ResourceVersion := "9"; UID := "1c4"; Generation := 0;
          Labels := Some {[ "kubernetes.io/metadata.name" := "prod" ]};
          Annotations := None |};
     ns_Spec := {| Finalizers := ["kubernetes"] |} |}.

(** A cluster that has the namespace, and one that does not. *)
Definition serving_clients : @KubeClientsets string_errors :=
  {| MainClientset := inl {| Namespaces_Get := fun _ => inl sample_namespace |};
     ConfigData := ConfigData sample_clients |}.

Definition missing_clients : @KubeClientsets string_errors :=
  {| MainClientset :=
       inl {| Namespaces_Get := fun _ => inr ("not found" : @error string_errors) |};
     ConfigData := ConfigData sample_clients |}.

(** ** Shapes of limit entries *)

Section LimitShapes.
Context `{Quantities}.

(** The attribute is absent or a map, as the schema of a limit has it. *)
Definition field_typed (limit : gomap iface) (key : string) : bool :=
  match go_lookup limit key with
  | None | Some (IMap _) => true
  | Some _ => false
  end.

Definition limit_typed (l : iface) : bool :=
  match l with
  | IMap limit =>
      match go_lookup limit "type" with
      | None | Some (IString _) => true
      | Some _ => false
      end
      && field_typed limit "default_request" && field_typed limit "default"
      && field_typed limit "max" && field_typed limit "max_limit_request_ratio"
      && field_typed limit "min"
  | _ => false
  end.

(** The type of a limit entry, the empty string when it has none. *)
Definition limit_type (limit : gomap iface) : string :=
  match go_lookup limit "type" with
  | Some v => string_of v
  | None => ""
  end.

(** A Pod limit that carries default requests. *)
Definition pod_with_default_request (limit : gomap iface) : bool :=
  String.eqb (limit_type limit) "Pod" &&
  match go_lookup limit "default_request" with
  | Some (IMap drm) => (0 <? go_len drm)%nat
  | _ => false
  end.

(** The attribute is absent, or a map of quantities that all convert. *)
Definition field_converts (limit : gomap iface) (key : string) : bool :=
  match go_lookup limit key with
  | None => true
  | Some (IMap vm) =>
      match (ExpandMapToResourceList vm).2 with
      | None => true
      | Some _ => false
      end
  | Some _ => false
  end.

(** An entry an update can expand: well typed, every resource list converts,
    the default requests of a Pod limit left aside. *)
Definition limit_convertible (l : iface) : bool :=
  match l with
  | IMap limit =>
      limit_typed l
      && (pod_with_default_request limit || field_converts limit "default_request")
      && field_converts limit "default" && field_converts limit "max"
      && field_converts limit "max_limit_request_ratio"
      && field_converts limit "min"
  | _ => false
  end.

(** What an expanded attribute holds: nothing when the entry has none, the
    converted resource list otherwise. *)
Definition field_expanded (limit : gomap iface) (key : string)
    (field : gomap Quantity) : Prop :=
  match go_lookup limit key with
  | None => field = None
  | Some v => exists vm el, v = IMap vm
                            /\ ExpandMapToResourceList vm = (el, None)
                            /\ field = Some el
  end.
End LimitShapes.

(** Two limits: a container limit, and a Pod limit whose default request is
    not even a quantity. *)
Definition sample_limits : list iface :=
  [IMap (Some {[ "type" := IString "Container";
                 "default" := IMap (Some {[ "cpu" := IString "2" ]}) ]});
   IMap (Some {[ "type" := IString "Pod";
                 "default_request" := IMap (Some {[ "cpu" := IString "plenty" ]});
                 "max" := IMap (Some {[ "memory" := IInt 4 ]}) ]})].

Definition sample_limit_spec : gomap iface :=
  Some {[ "limit" := ISlice sample_limits ]}.

(** ** More of package structures *)

Definition SliceOfString (slice : list iface) : outcome (list string) :=
  fill_by_index "" (fun _ s => assert_string s) slice.


Record LocalObjectReference := {
  lor_Name : string
}.

Definition FlattenLocalObjectReferenceArray (in_ : list LocalObjectReference)
    : list iface :=
  fill_pure INil
    (fun v =>
       let m : gmap string iface := ∅ in
       let m := if negb (String.eqb (lor_Name v) "")
                then <["name" := IString (lor_Name v)]> m else m in
       IMap (Some m)) in_.

Definition ExpandLocalObjectReferenceArray (in_ : list iface)
    : outcome (list LocalObjectReference) :=
  if (length in_ <? 1)%nat then Ret [] else
  fill_by_index {| lor_Name := "" |}
    (fun _ c =>
       p ← assert_map c;
       match go_lookup p "name" with
       | Some name => n ← assert_string name; Ret {| lor_Name := n |}
       | None => Ret {| lor_Name := "" |}
       end) in_.

Record ObjectReference := {
  or_Kind : string;
  or_Namespace : string;
  or_Name : string;
  or_UID : string;
  or_APIVersion : string;
  or_ResourceVersion : string;
  or_FieldPath : string
}.

(** [api.ObjectReference{Name: name}] *)
Definition ObjectReference_named (name : string) : ObjectReference :=
  {| or_Kind := ""; or_Namespace := ""; or_Name := name; or_UID := "";
     or_APIVersion := ""; or_ResourceVersion := ""; or_FieldPath := "" |}.

Definition FlattenServiceAccountSecrets (in_ : list ObjectReference)
    (defaultSecretName : string) : list iface :=
  foldl (fun att v =>
           if String.eqb (or_Name v) defaultSecretName then att
           else
             let m : gmap string iface := ∅ in
             let m := if negb (String.eqb (or_Name v) "")
                      then <["name" := IString (or_Name v)]> m else m in
             (att ++ [IMap (Some m)])%list) [] in_.

Definition ExpandServiceAccountSecrets (in_ : list iface)
    (defaultSecretName : string) : outcome (list ObjectReference) :=
  att ← foldl (fun acc c =>
                 att ← acc;
                 p ← assert_map c;
                 match go_lookup p "name" with
                 | Some name =>
                     n ← assert_string name;
                     Ret (att ++ [ObjectReference_named n])%list
                 | None => Ret att
                 end) (Ret []) in_;
  if negb (String.eqb defaultSecretName "")
  then Ret (att ++ [ObjectReference_named defaultSecretName])%list
  else Ret att.




Section ScopeSelectors.
Context `{SchemaSets}.

End ScopeSelectors.

(** [Quantity.String] and [Quantity.Cmp] of the resource package. *)
Class QuantityOps `{Quantities} := {
  Quantity_String : Quantity -> string;
  Quantity_Cmp : Quantity -> Quantity -> Z
}.

Section ResourceLists.
Context `{QuantityOps}.

Definition FlattenResourceList (l : gomap Quantity) : gmap string string :=
  match l with
  | None => ∅
  | Some g => map_fold (fun k v m => <[k := Quantity_String v]> m) ∅ g
  end.

(** Both loops return false at the first entry that has no equal partner. *)
Definition ResourceListEquals (x y : gomap Quantity) : bool :=
  let covered (a b : gomap Quantity) :=
    match a with
    | None => true
    | Some g =>
        map_fold (fun k v acc =>
                    acc && match go_lookup b k with
                           | None => false
                           | Some bValue => Quantity_Cmp v bValue =? 0
                           end) true g
    end in
  covered x y && covered y x.

Definition FlattenLimitRangeSpec (in_ : LimitRangeSpec) : list iface :=
  if (length (Limits in_) =? 0)%nat then [] else
  let limits :=
    fill_pure INil
      (fun l =>
         let m : gmap string iface := ∅ in
         let m := <["default" := IStringMap (Some (FlattenResourceList (Default l)))]> m in
         let m := <["default_request" :=
                      IStringMap (Some (FlattenResourceList (DefaultRequest l)))]> m in
         let m := <["max" := IStringMap (Some (FlattenResourceList (Max l)))]> m in
         let m := <["max_limit_request_ratio" :=
                      IStringMap (Some (FlattenResourceList (MaxLimitRequestRatio l)))]> m in
         let m := <["min" := IStringMap (Some (FlattenResourceList (Min l)))]> m in
         let m := <["type" := IString (Type_ l)]> m in
         IMap (Some m)) (Limits in_) in
  [IMap (Some {[ "limit" := ISlice limits ]})].
End ResourceLists.

(** Decimal quantities print as decimals and compare as integers. *)
Definition decimal_quantity_ops : @QuantityOps string_errors decimal_quantities :=
  {| Quantity_String := fun q : @Quantity _ decimal_quantities => pretty (q : Z);
     Quantity_Cmp := fun a b : @Quantity _ decimal_quantities =>
       match Z.compare (a : Z) (b : Z) with Lt => -1 | Eq => 0 | Gt => 1 end |}.

(** The quantity a value of a resource map stands for, when it has one: an
    integer, or a string that parses. *)
Definition quantity_of `{Quantities} (v : iface) : option Quantity :=
  match v with
  | IInt z => Some (resource_NewQuantity z)
  | IString s =>
      match resource_ParseQuantity s with
      | inl q => Some q
      | inr _ => None
      end
  | _ => None
  end.

(** * Properties *)

Section Loops.
Context {A B : Type}.

Lemma fill_pure_from (zero : B) (f : A -> B) (s : list A) :
  forall (pre : list B) (g : nat -> nat),
    (forall i, g i = (length pre + i)%nat) ->
    foldl (fun out iv => <[iv.1 := f iv.2]> out)
          (pre ++ replicate (length s) zero)%list (imap (fun i x => (g i, x)) s)
    = (pre ++ map f s)%list.
Proof.
  induction s as [|a s IH]; intros pre g Hg; simpl.
  - reflexivity.
  - rewrite Hg, Nat.add_0_r.
    rewrite (insert_app_r_alt pre) by lia.
    rewrite Nat.sub_diag. simpl.
    rewrite (cons_middle (f a) pre), (cons_middle (f a) pre (map f s)).
    rewrite !app_assoc.
    apply (IH (pre ++ [f a])%list (g ∘ S)).
    intros i. unfold compose. rewrite Hg, length_app. simpl. lia.
Qed.

Lemma fill_pure_map (zero : B) (f : A -> B) (s : list A) :
  fill_pure zero f s = map f s.
Proof.
  unfold fill_pure.
  exact (fill_pure_from zero f s [] (fun i => i) (fun i => eq_refl)).
Qed.

Lemma foldl_panic (step : outcome (list B) -> nat * A -> outcome (list B))
    (l : list (nat * A)) :
  (forall iv, step Panic iv = Panic) -> foldl step Panic l = Panic.
Proof.
  intros Hstep. induction l as [|iv l IH]; simpl; [reflexivity|].
  rewrite Hstep. exact IH.
Qed.

Lemma fill_by_index_from (zero : B) (f : nat -> A -> outcome B) (s : list A) :
  forall (pre : list B) (g : nat -> nat),
    (forall i, g i = (length pre + i)%nat) ->
    foldl (fun acc iv => out ← acc; x ← f iv.1 iv.2; mret (<[iv.1 := x]> out))
          (Ret (pre ++ replicate (length s) zero)%list)
          (imap (fun i x => (g i, x)) s)
    = (r ← outcome_imap f (length pre) s; Ret (pre ++ r)%list).
Proof.
  induction s as [|a s IH]; intros pre g Hg; simpl.
  - reflexivity.
  - rewrite Hg, Nat.add_0_r.
    destruct (f (length pre) a) as [y|] eqn:Hf; simpl.
    + unfold mret, outcome_ret.
      rewrite (insert_app_r_alt pre) by lia.
      rewrite Nat.sub_diag. simpl.
      rewrite (cons_middle y pre), app_assoc.
      trans (r ← outcome_imap f (length (pre ++ [y])%list) s;
             Ret ((pre ++ [y]) ++ r)%list).
      * apply (IH (pre ++ [y])%list (g ∘ S)).
        intros i. unfold compose. rewrite Hg, length_app. simpl. lia.
      * rewrite length_app. simpl. rewrite Nat.add_1_r.
        destruct (outcome_imap f (S (length pre)) s); simpl; [|reflexivity].
        by rewrite <- app_assoc.
    + apply foldl_panic. reflexivity.
Qed.

Lemma fill_by_index_imap (zero : B) (f : nat -> A -> outcome B) (s : list A) :
  fill_by_index zero f s = outcome_imap f 0 s.
Proof.
  unfold fill_by_index.
  trans (r ← outcome_imap f 0 s; Ret r).
  - exact (fill_by_index_from zero f s [] (fun i => i) (fun i => eq_refl)).
  - by destruct (outcome_imap f 0 s).
Qed.

(** A loop whose body does not look at the index returns exactly when the
    body returns on every element. *)
Lemma outcome_imap_ret (f : A -> outcome B) (s : list A) (r : list B) :
  forall i, outcome_imap (fun _ => f) i s = Ret r <-> Forall2 (fun x y => f x = Ret y) s r.
Proof.
  revert r. induction s as [|x s IH]; intros r i; simpl.
  - split.
    + intros [= <-]. constructor.
    + intros Hr. by inversion Hr.
  - split.
    + destruct (f x) as [y|] eqn:Hf; simpl; [|discriminate].
      destruct (outcome_imap (fun _ => f) (S i) s) as [r'|] eqn:Hr; simpl; [|discriminate].
      intros [= <-]. constructor; [exact Hf|]. by apply (IH r' (S i)).
    + intros Hr. inversion Hr as [|? y ? r' Hf Hr']; subst.
      rewrite Hf. simpl. apply (IH r' (S i)) in Hr'. rewrite Hr'. reflexivity.
Qed.
End Loops.

(** ** String slices *)

Lemma ExpandStringSlice_imap (s : list iface) :
  ExpandStringSlice s
  = outcome_imap (fun _ v => match v with INil => Ret "" | _ => assert_string v end) 0 s.
Proof. apply fill_by_index_imap. Qed.

Lemma ExpandStringSlice_returns (s : list iface) (r : list string) :
  ExpandStringSlice s = Ret r <->
  Forall2 (fun v x => nil_or_string v = true /\ x = string_of v) s r.
Proof.
  rewrite ExpandStringSlice_imap.
  rewrite (outcome_imap_ret
             (fun v => match v with INil => Ret "" | _ => assert_string v end)).
  split; intros Hr; eapply Forall2_impl; try exact Hr; simpl.
  - intros v x Hv. destruct v; simpl in Hv; try discriminate;
      injection Hv as <-; split; reflexivity.
  - intros v x [Hv ->]. destruct v; simpl in Hv; try discriminate; reflexivity.
Qed.

Lemma ExpandStringSlice_strings (s : list iface) :
  forallb nil_or_string s = true -> ExpandStringSlice s = Ret (map string_of s).
Proof.
  intros Hs. apply ExpandStringSlice_returns.
  induction s as [|v s IH]; simpl in *; [constructor|].
  apply andb_prop in Hs as [Hv Hs]. constructor; [split; [exact Hv|reflexivity]|].
  by apply IH.
Qed.

(** ** Metadata reconciliation *)

Lemma IsKeyInMap_true (key : string) (d : gomap iface) :
  IsKeyInMap key d = true <-> is_Some (go_lookup d key).
Proof.
  destruct d as [g|]; simpl.
  - rewrite existsb_exists. split.
    + intros (k & Hin & Hk). apply String.eqb_eq in Hk as ->.
      apply list_elem_of_In, list_elem_of_fmap in Hin as ([k v] & -> & Hin).
      apply elem_of_map_to_list in Hin. simpl. by exists v.
    + intros [v Hv]. exists key. split; [|apply String.eqb_refl].
      apply list_elem_of_In, list_elem_of_fmap. exists (key, v).
      split; [reflexivity|]. by apply elem_of_map_to_list.
  - split; [discriminate|]. intros [v Hv]. discriminate.
Qed.

(** Deleting while ranging: the keys that satisfy the test are gone, the
    other entries are as they were, whatever the order of the visit. *)
Lemma range_delete_lookup (P : string -> bool) (b g : gmap string string) (k : string) :
  map_fold (fun k _ acc => if P k then delete k acc else acc) b g !! k
  = match g !! k with
    | Some _ => if P k then None else b !! k
    | None => b !! k
    end.
Proof.
  revert k.
  apply (map_fold_weak_ind
           (fun r m => forall k,
                r !! k = match m !! k with
                         | Some _ => if P k then None else b !! k
                         | None => b !! k
                         end)).
  - intros k. by rewrite lookup_empty.
  - intros i x m r Hi IH k. specialize (IH k).
    destruct (decide (k = i)) as [->|Hne].
    + rewrite lookup_insert_eq. rewrite Hi in IH.
      destruct (P i); [apply lookup_delete_eq|exact IH].
    + rewrite (lookup_insert_ne m) by done.
      destruct (P i); [rewrite lookup_delete_ne by done|]; exact IH.
Qed.

Lemma range_delete_self (P : string -> bool) (g : gmap string string) (k : string) :
  map_fold (fun k _ acc => if P k then delete k acc else acc) g g !! k
  = if P k then None else g !! k.
Proof.
  rewrite range_delete_lookup.
  destruct (g !! k), (P k); reflexivity.
Qed.

Section MetadataFacts.
Context `{NetURL} `{Regexp}.

Lemma removeInternalKeys_lookup (m : gomap string) (d : gomap iface) (k : string) :
  go_lookup (removeInternalKeys m d) k
  = if IsInternalKey k && negb (IsKeyInMap k d) then None else go_lookup m k.
Proof.
  destruct m as [g|]; simpl.
  - apply (range_delete_self (fun k => IsInternalKey k && negb (IsKeyInMap k d))).
  - by destruct (IsInternalKey k && negb (IsKeyInMap k d)).
Qed.

Lemma removeKeys_lookup (m : gomap string) (d : gomap iface)
    (expressions : list string) (k : string) :
  go_lookup (removeKeys m d expressions) k
  = if ignoreKey k expressions && negb (IsKeyInMap k d) then None else go_lookup m k.
Proof.
  destruct m as [g|]; simpl.
  - apply (range_delete_self (fun k => ignoreKey k expressions && negb (IsKeyInMap k d))).
  - by destruct (ignoreKey k expressions && negb (IsKeyInMap k d)).
Qed.

Lemma ignoreKey_true (key : string) (expressions : list string) :
  ignoreKey key expressions = true <->
  exists e, e ∈ expressions /\ (regexp_MatchString e key).1 = true.
Proof.
  induction expressions as [|e es IH]; simpl.
  - split; [discriminate|]. intros (e & He & _). by apply elem_of_nil in He.
  - destruct (regexp_MatchString e key).1 eqn:He.
    + split; [|reflexivity]. intros _. exists e. split; [left|exact He].
    + rewrite IH. split.
      * intros (e' & Hin & He'). exists e'. split; [by right|exact He'].
      * intros (e' & Hin & He'). apply elem_of_cons in Hin as [->|Hin].
        -- congruence.
        -- by exists e'.
Qed.

(** What [FlattenMetadata] returns when the resource data and the provider
    settings have the types their schemas give them. *)
Lemma FlattenMetadata_returns (meta : ObjectMeta) (d : ResourceData)
    (clients : KubeClientsets) (metaPrefix : list string)
    (configAnnotations configLabels : gomap iface) :
  rd_Get d (hd "" metaPrefix ++ "metadata.0.annotations") = IMap configAnnotations ->
  rd_Get d (hd "" metaPrefix ++ "metadata.0.labels") = IMap configLabels ->
  ignore_list_ok (rd_Get (ConfigData clients) "ignore_annotations") = true ->
  ignore_list_ok (rd_Get (ConfigData clients) "ignore_labels") = true ->
  exists m : gmap string iface,
    FlattenMetadata meta d (MetaClientsets clients) metaPrefix = Ret [IMap (Some m)]
    /\ m !! "annotations"
       = Some (IStringMap
                 (removeKeys (removeInternalKeys (Annotations meta) configAnnotations)
                    configAnnotations
                    (ignore_list (rd_Get (ConfigData clients) "ignore_annotations"))))
    /\ m !! "labels"
       = Some (IStringMap
                 (removeKeys (removeInternalKeys (Labels meta) configLabels)
                    configLabels
                    (ignore_list (rd_Get (ConfigData clients) "ignore_labels")))).
Proof.
  intros Ha Hl Hia Hil. unfold FlattenMetadata.
  replace (match metaPrefix with p :: _ => p | [] => "" end) with (hd "" metaPrefix)
    by (by destruct metaPrefix).
  rewrite Ha, Hl. simpl.
  unfold ignore_list_ok, ignore_list in *.
  destruct (slice_ok (rd_Get (ConfigData clients) "ignore_annotations")) as [ia|];
    [rewrite (ExpandStringSlice_strings ia Hia)|]; simpl;
    (destruct (slice_ok (rd_Get (ConfigData clients) "ignore_labels")) as [il|];
     [rewrite (ExpandStringSlice_strings il Hil)|]; simpl);
    eexists; (split; [reflexivity|]);
    destruct (negb (GenerateName meta =? "")%string),
             (negb (Namespace meta =? "")%string);
    split; by simplify_map_eq.
Qed.
End MetadataFacts.

(** ** Suffixes and substrings *)

Lemma String_prefix_app (t s : string) :
  String.prefix t s = true <-> exists b, s = t ++ b.
Proof.
  revert s. induction t as [|c t IH]; intros s; simpl.
  - split; [intros _; by exists s|intros _; by destruct s].
  - destruct s as [|c' s]; simpl;
      [split; [discriminate|intros [b Hb]; discriminate]|].
    destruct (Ascii.ascii_dec c c') as [->|Hne].
    + rewrite IH. split; intros [b Hb]; exists b; [by rewrite Hb|by injection Hb].
    + split; [discriminate|]. intros [b Hb]. injection Hb as Hc _. congruence.
Qed.

Lemma strings_Contains_app (s t : string) :
  strings_Contains s t = true <-> exists a b, s = a ++ t ++ b.
Proof.
  induction s as [|c s IH].
  - change (strings_Contains "" t) with (String.prefix t "" || false).
    rewrite orb_false_r, String_prefix_app. split.
    + intros [b Hb]. by exists "", b.
    + intros (a & b & Hab). destruct a; [by exists b|discriminate].
  - change (strings_Contains (String c s) t)
      with (String.prefix t (String c s) || strings_Contains s t).
    rewrite orb_true_iff, String_prefix_app, IH. split.
    + intros [[b Hb]|(a & b & Hab)]; [by exists "", b|].
      exists (String c a), b. simpl. by rewrite Hab.
    + intros (a & b & Hab). destruct a as [|c' a]; [left; by exists b|].
      right. injection Hab as _ Hab. by exists a, b.
Qed.

Lemma substring_whole (t : string) : substring 0 (String.length t) t = t.
Proof. induction t as [|c t IHt]; simpl; [reflexivity|by f_equal]. Qed.

Lemma substring_app_suffix (p t : string) :
  substring (String.length p) (String.length t) (p ++ t) = t.
Proof.
  induction p as [|c p IH]; [apply substring_whole|exact IH].
Qed.

Lemma substring_split (n : nat) (s : string) :
  (n <= String.length s)%nat ->
  exists p, s = p ++ substring n (String.length s - n) s /\ String.length p = n.
Proof.
  revert s. induction n as [|n IH]; intros s Hn.
  - exists "". rewrite Nat.sub_0_r. split; [|reflexivity].
    symmetry. apply substring_whole.
  - destruct s as [|c s]; simpl in *; [lia|].
    destruct (IH s) as (p & Hp & Hlen); [lia|].
    exists (String c p). split; [|simpl; by rewrite Hlen].
    change (String c p ++ substring n (String.length s - n) s)
      with (String c (p ++ substring n (String.length s - n) s)).
    by rewrite <- Hp.
Qed.

Lemma String_length_app (a b : string) :
  String.length (a ++ b) = (String.length a + String.length b)%nat.
Proof. induction a as [|c a IH]; simpl; [reflexivity|by rewrite IH]. Qed.

Lemma strings_HasSuffix_app (s t : string) :
  strings_HasSuffix s t = true <-> exists p, s = p ++ t.
Proof.
  unfold strings_HasSuffix. rewrite andb_true_iff, Nat.leb_le, String.eqb_eq. split.
  - intros [Hlen Hsub].
    destruct (substring_split (String.length s - String.length t) s) as (p & Hp & _);
      [lia|].
    replace (String.length s - (String.length s - String.length t))%nat
      with (String.length t) in Hp by lia.
    rewrite Hsub in Hp. by exists p.
  - intros [p ->]. rewrite String_length_app. split; [lia|].
    replace (String.length p + String.length t - String.length t)%nat
      with (String.length p) by lia.
    apply substring_app_suffix.
Qed.

(** ** Internal keys *)

Example go_url_Parse_key :
  go_url_Hostname <$> go_url_Parse "//node.kubernetes.io/instance-type"
  = Some "node.kubernetes.io".
Proof. reflexivity. Qed.

Example go_url_Parse_plain :
  go_url_Hostname <$> go_url_Parse "//owner" = Some "owner".
Proof. reflexivity. Qed.

Example go_url_Parse_bad_escape : go_url_Parse "//example.com%zz/key" = None.
Proof. reflexivity. Qed.

Section InternalKeyCases.
Context `{NetURL}.

(** C2, as the code has it: [IsInternalKey k] is true exactly when
    ["//" ++ k] parses, the hostname is neither [app.kubernetes.io] nor
    [service.beta.kubernetes.io], and the hostname ends with
    [kubernetes.io] or [k] contains
    [deprecated.daemonset.template.generation]; it is false for every
    other key, in particular whenever the parse fails or the hostname is
    one of the two exempted ones. *)
Theorem IsInternalKey_cases (k : string) :
  IsInternalKey k = true <->
  exists u, url_Parse ("//" ++ k) = Some u
            /\ Hostname u <> "app.kubernetes.io"
            /\ Hostname u <> "service.beta.kubernetes.io"
            /\ ((exists p, Hostname u = p ++ "kubernetes.io")
                \/ (exists a b,
                      k = a ++ "deprecated.daemonset.template.generation" ++ b)).
Proof.
  unfold IsInternalKey.
  destruct (url_Parse ("//" ++ k)) as [u|]; [|split; [discriminate|by intros (? & ? & _)]].
  destruct (String.eqb_spec (Hostname u) "app.kubernetes.io") as [Ha|Ha].
  { split; [discriminate|]. intros (u' & [= <-] & Hne & _). done. }
  destruct (String.eqb_spec (Hostname u) "service.beta.kubernetes.io") as [Hs|Hs].
  { split; [discriminate|]. intros (u' & [= <-] & _ & Hne & _). done. }
  destruct (strings_HasSuffix (Hostname u) "kubernetes.io") eqn:Hsuf.
  { split; [|reflexivity]. intros _. exists u. repeat split; try done.
    left. by apply strings_HasSuffix_app. }
  destruct (strings_Contains k "deprecated.daemonset.template.generation") eqn:Hsub.
  { split; [|reflexivity]. intros _. exists u. repeat split; try done.
    right. by apply strings_Contains_app. }
  split; [discriminate|]. intros (u' & [= <-] & _ & _ & [Hp|Hab]).
  - apply strings_HasSuffix_app in Hp. congruence.
  - apply strings_Contains_app in Hab. congruence.
Qed.
End InternalKeyCases.

(** C2 as stated fails: a key that contains
    [deprecated.daemonset.template.generation] is not internal when it does
    not parse (a dangling percent sign), nor when its hostname is
    [app.kubernetes.io]. *)
Lemma IsInternalKey_substring_not_enough :
  let k1 := "deprecated.daemonset.template.generation%" in
  let k2 := "app.kubernetes.io/deprecated.daemonset.template.generation" in
  (strings_Contains k1 "deprecated.daemonset.template.generation" = true
   /\ @url_Parse go_net_url ("//" ++ k1) = None
   /\ @IsInternalKey go_net_url k1 = false)
  /\ (strings_Contains k2 "deprecated.daemonset.template.generation" = true
      /\ @Hostname go_net_url <$> @url_Parse go_net_url ("//" ++ k2)
         = Some "app.kubernetes.io"
      /\ @IsInternalKey go_net_url k2 = false).
Proof. vm_compute. repeat split. Qed.

Example IsInternalKey_samples :
  map (@IsInternalKey go_net_url)
      ["node.kubernetes.io/role"; "kubernetes.io"; "app.kubernetes.io/name";
       "service.beta.kubernetes.io/aws-load-balancer-type";
       "deprecated.daemonset.template.generation"; "owner"; "notkubernetes.io/x"]
  = [true; true; false; false; true; false; true].
Proof. vm_compute. reflexivity. Qed.

(** ** Hidden keys *)

Section HiddenKeys.
Context `{NetURL} `{Regexp}.

(** C5: filtering only deletes keys the user did not configure.  A key of
    the user-configured map reads the same after [removeInternalKeys], after
    [removeKeys] and after both, be it internal or ignored. *)
Theorem filtering_keeps_configured_keys (m : gomap string) (d : gomap iface)
    (expressions : list string) (k : string) :
  IsKeyInMap k d = true ->
  go_lookup (removeInternalKeys m d) k = go_lookup m k
  /\ go_lookup (removeKeys m d expressions) k = go_lookup m k
  /\ go_lookup (removeKeys (removeInternalKeys m d) d expressions) k = go_lookup m k.
Proof.
  intros Hk.
  assert (Hi : go_lookup (removeInternalKeys m d) k = go_lookup m k)
    by (rewrite removeInternalKeys_lookup, Hk; simpl; by rewrite andb_false_r).
  assert (Hr : forall m', go_lookup (removeKeys m' d expressions) k = go_lookup m' k)
    by (intros m'; rewrite removeKeys_lookup, Hk; simpl; by rewrite andb_false_r).
  split; [exact Hi|]. split; [apply Hr|]. rewrite Hr. exact Hi.
Qed.

(** C1: the annotations and the labels that [FlattenMetadata] returns hold
    no internal key, apart from those the user configured. *)
Theorem FlattenMetadata_hides_internal_keys (meta : ObjectMeta) (d : ResourceData)
    (clients : KubeClientsets) (metaPrefix : list string)
    (configAnnotations configLabels : gomap iface) :
  rd_Get d (hd "" metaPrefix ++ "metadata.0.annotations") = IMap configAnnotations ->
  rd_Get d (hd "" metaPrefix ++ "metadata.0.labels") = IMap configLabels ->
  ignore_list_ok (rd_Get (ConfigData clients) "ignore_annotations") = true ->
  ignore_list_ok (rd_Get (ConfigData clients) "ignore_labels") = true ->
  exists (m : gmap string iface) (annotations labels : gomap string),
    FlattenMetadata meta d (MetaClientsets clients) metaPrefix = Ret [IMap (Some m)]
    /\ m !! "annotations" = Some (IStringMap annotations)
    /\ m !! "labels" = Some (IStringMap labels)
    /\ (forall k, IsInternalKey k = true -> IsKeyInMap k configAnnotations = false ->
                  go_lookup annotations k = None)
    /\ (forall k, IsInternalKey k = true -> IsKeyInMap k configLabels = false ->
                  go_lookup labels k = None).
Proof.
  intros Ha Hl Hia Hil.
  destruct (FlattenMetadata_returns meta d clients metaPrefix _ _ Ha Hl Hia Hil)
    as (m & Hret & Hma & Hml).
  eexists m, _, _. repeat split; [exact Hret|exact Hma|exact Hml| |];
    intros k Hint Hcfg;
    rewrite removeKeys_lookup, removeInternalKeys_lookup, Hint, Hcfg; simpl;
    by destruct (ignoreKey k _).
Qed.

(** C4: a key that matches one of the provider's ignore expressions is
    absent from what [FlattenMetadata] returns, unless the user configured
    it: annotations with [ignore_annotations], labels with [ignore_labels]. *)
Theorem FlattenMetadata_hides_ignored_keys (meta : ObjectMeta) (d : ResourceData)
    (clients : KubeClientsets) (metaPrefix : list string)
    (configAnnotations configLabels : gomap iface)
    (ignoreAnnotations ignoreLabels : list string) :
  rd_Get d (hd "" metaPrefix ++ "metadata.0.annotations") = IMap configAnnotations ->
  rd_Get d (hd "" metaPrefix ++ "metadata.0.labels") = IMap configLabels ->
  rd_Get (ConfigData clients) "ignore_annotations"
    = ISlice (map IString ignoreAnnotations) ->
  rd_Get (ConfigData clients) "ignore_labels" = ISlice (map IString ignoreLabels) ->
  exists (m : gmap string iface) (annotations labels : gomap string),
    FlattenMetadata meta d (MetaClientsets clients) metaPrefix = Ret [IMap (Some m)]
    /\ m !! "annotations" = Some (IStringMap annotations)
    /\ m !! "labels" = Some (IStringMap labels)
    /\ (forall k e, e ∈ ignoreAnnotations -> (regexp_MatchString e k).1 = true ->
                    IsKeyInMap k configAnnotations = false ->
                    go_lookup annotations k = None)
    /\ (forall k e, e ∈ ignoreLabels -> (regexp_MatchString e k).1 = true ->
                    IsKeyInMap k configLabels = false ->
                    go_lookup labels k = None).
Proof.
  intros Ha Hl Hia Hil.
  assert (Hstr : forall l, forallb nil_or_string (map IString l) = true)
    by (intros l; induction l; simpl; auto).
  assert (Hof : forall l, map string_of (map IString l) = l)
    by (intros l; induction l; simpl; congruence).
  destruct (FlattenMetadata_returns meta d clients metaPrefix
              configAnnotations configLabels Ha Hl) as (m & Hret & Hma & Hml).
  { unfold ignore_list_ok. rewrite Hia. apply Hstr. }
  { unfold ignore_list_ok. rewrite Hil. apply Hstr. }
  unfold ignore_list in Hma, Hml. rewrite Hia in Hma. rewrite Hil in Hml.
  simpl in Hma, Hml. rewrite Hof in Hma, Hml.
  eexists m, _, _. repeat split; [exact Hret|exact Hma|exact Hml| |];
    intros k e He Hmatch Hcfg;
    rewrite removeKeys_lookup, Hcfg;
    (rewrite (proj2 (ignoreKey_true k _)) by (by exists e)); reflexivity.
Qed.
End HiddenKeys.

Example FlattenMetadata_sample :
  exists m : gmap string iface,
    @FlattenMetadata go_net_url string_errors literal_regexp
      sample_meta sample_data (MetaClientsets sample_clients) [] = Ret [IMap (Some m)]
    /\ m !! "annotations"
       = Some (IStringMap (Some {[ "node.kubernetes.io/role" := "edge";
                                   "owner" := "ops" ]}))
    /\ m !! "labels" = Some (IStringMap (Some {[ "app" := "web" ]}))
    /\ m !! "namespace" = Some (IString "prod")
    /\ m !! "generate_name" = None.
Proof. eexists. split; [vm_compute; reflexivity|]. vm_compute. repeat split. Qed.

Lemma filtering_keeps_configured_keys_witness :
  IsKeyInMap "node.kubernetes.io/role" sample_config_annotations = true
  /\ (go_lookup (@removeInternalKeys go_net_url (Annotations sample_meta)
                   sample_config_annotations) "node.kubernetes.io/role"
      = go_lookup (Annotations sample_meta) "node.kubernetes.io/role"
      /\ go_lookup (@removeKeys string_errors literal_regexp (Annotations sample_meta)
                      sample_config_annotations ["kubernetes"]) "node.kubernetes.io/role"
         = go_lookup (Annotations sample_meta) "node.kubernetes.io/role"
      /\ go_lookup (@removeKeys string_errors literal_regexp
                      (@removeInternalKeys go_net_url (Annotations sample_meta)
                         sample_config_annotations)
                      sample_config_annotations ["kubernetes"]) "node.kubernetes.io/role"
         = go_lookup (Annotations sample_meta) "node.kubernetes.io/role").
Proof.
  split; [vm_compute; reflexivity|].
  apply (@filtering_keeps_configured_keys go_net_url string_errors literal_regexp).
  vm_compute; reflexivity.
Defined.

Lemma FlattenMetadata_hides_internal_keys_witness :
  rd_Get sample_data (hd "" [] ++ "metadata.0.annotations") = IMap sample_config_annotations
  /\ rd_Get sample_data (hd "" [] ++ "metadata.0.labels") = IMap (Some ∅)
  /\ ignore_list_ok (rd_Get (ConfigData sample_clients) "ignore_annotations") = true
  /\ ignore_list_ok (rd_Get (ConfigData sample_clients) "ignore_labels") = true
  /\ exists (m : gmap string iface) (annotations labels : gomap string),
      @FlattenMetadata go_net_url string_errors literal_regexp
        sample_meta sample_data (MetaClientsets sample_clients) [] = Ret [IMap (Some m)]
      /\ m !! "annotations" = Some (IStringMap annotations)
      /\ m !! "labels" = Some (IStringMap labels)
      /\ (forall k, @IsInternalKey go_net_url k = true ->
                    IsKeyInMap k sample_config_annotations = false ->
                    go_lookup annotations k = None)
      /\ (forall k, @IsInternalKey go_net_url k = true ->
                    IsKeyInMap k (Some ∅) = false ->
                    go_lookup labels k = None).
Proof.
  repeat (split; [reflexivity|]).
  apply (@FlattenMetadata_hides_internal_keys go_net_url string_errors literal_regexp);
    reflexivity.
Defined.

Lemma FlattenMetadata_hides_ignored_keys_witness :
  rd_Get sample_data (hd "" [] ++ "metadata.0.annotations") = IMap sample_config_annotations
  /\ rd_Get sample_data (hd "" [] ++ "metadata.0.labels") = IMap (Some ∅)
  /\ rd_Get (ConfigData sample_clients) "ignore_annotations"
     = ISlice (map IString ["cattle"])
  /\ rd_Get (ConfigData sample_clients) "ignore_labels" = ISlice (map IString ["team"])
  /\ exists (m : gmap string iface) (annotations labels : gomap string),
      @FlattenMetadata go_net_url string_errors literal_regexp
        sample_meta sample_data (MetaClientsets sample_clients) [] = Ret [IMap (Some m)]
      /\ m !! "annotations" = Some (IStringMap annotations)
      /\ m !! "labels" = Some (IStringMap labels)
      /\ (forall k e, e ∈ ["cattle"] ->
                      (@regexp_MatchString string_errors literal_regexp e k).1 = true ->
                      IsKeyInMap k sample_config_annotations = false ->
                      go_lookup annotations k = None)
      /\ (forall k e, e ∈ ["team"] ->
                      (@regexp_MatchString string_errors literal_regexp e k).1 = true ->
                      IsKeyInMap k (Some ∅) = false ->
                      go_lookup labels k = None).
Proof.
  repeat (split; [reflexivity|]).
  apply (@FlattenMetadata_hides_ignored_keys go_net_url string_errors literal_regexp);
    reflexivity.
Defined.

(** ** Identifiers *)

Lemma strings_Split_length (s : string) (sep : ascii) :
  length (strings_Split s sep)
  = S (length (filter (fun c => c = sep) (list_ascii_of_string s))).
Proof.
  induction s as [|c s IH]; simpl; [reflexivity|].
  destruct (Ascii.eqb_spec c sep) as [->|Hne].
  - rewrite filter_cons_True by done. simpl. by rewrite IH.
  - rewrite filter_cons_False by done.
    destruct (strings_Split s sep) as [|p ps]; simpl in *; [discriminate|exact IH].
Qed.

Lemma strings_Split_none (s : string) (sep : ascii) :
  length (filter (fun c => c = sep) (list_ascii_of_string s)) = 0%nat ->
  strings_Split s sep = [s].
Proof.
  induction s as [|c s IH]; simpl; [reflexivity|].
  destruct (Ascii.eqb_spec c sep) as [->|Hne].
  - rewrite filter_cons_True by done. discriminate.
  - rewrite filter_cons_False by done. intros Hs. by rewrite (IH Hs).
Qed.

Lemma strings_Split_app (a b : string) (sep : ascii) :
  length (filter (fun c => c = sep) (list_ascii_of_string a)) = 0%nat ->
  strings_Split (a ++ String sep b) sep = a :: strings_Split b sep.
Proof.
  induction a as [|c a IH]; simpl.
  - intros _. by rewrite Ascii.eqb_refl.
  - destruct (Ascii.eqb_spec c sep) as [->|Hne].
    + rewrite filter_cons_True by done. discriminate.
    + rewrite filter_cons_False by done. intros Ha.
      by rewrite (IH Ha).
Qed.

Section IdentifierFacts.
Context `{GoErrors}.

(** C8: an identifier built from a namespace and a name without slashes
    splits back into the two, with no error, whether the namespace is empty
    or not; and [IdParts] reports an error exactly when the identifier does
    not have exactly two parts, that is exactly one slash. *)
Theorem IdParts_BuildId :
  (forall meta : ObjectMeta,
      slashes (Namespace meta) = 0%nat -> slashes (Name meta) = 0%nat ->
      IdParts (BuildId meta) = (Namespace meta, Name meta, None))
  /\ (forall id : string,
         (IdParts id).2 <> None <-> slashes id <> 1%nat)
  /\ (forall id : string, length (strings_Split id "/") = S (slashes id)).
Proof.
  split; [|split].
  - intros meta Hns Hname. unfold IdParts, BuildId.
    change (Namespace meta ++ "/" ++ Name meta)
      with (Namespace meta ++ String "/" (Name meta)).
    rewrite (strings_Split_app _ _ "/" Hns), (strings_Split_none _ "/" Hname).
    reflexivity.
  - intros id. unfold IdParts. rewrite strings_Split_length. fold (slashes id).
    destruct (Nat.eqb_spec (S (slashes id)) 2) as [Hlen|Hlen]; simpl.
    + split; [done|]. intros Hne. lia.
    + split; [intros _; lia|discriminate].
  - intros id. apply strings_Split_length.
Qed.
End IdentifierFacts.

Lemma IdParts_BuildId_witness :
  slashes (Namespace sample_meta) = 0%nat
  /\ slashes (Name sample_meta) = 0%nat
  /\ @IdParts string_errors (BuildId sample_meta) = ("prod", "web", None)
  /\ (@IdParts string_errors "prod/web/extra").2 <> None
  /\ (@IdParts string_errors "web").2 <> None.
Proof.
  pose proof (@IdParts_BuildId string_errors) as (Hbuild & Herr & _).
  split; [reflexivity|]. split; [reflexivity|].
  split; [apply (Hbuild sample_meta); reflexivity|].
  split; apply Herr; vm_compute; discriminate.
Defined.

Example IdParts_empty_namespace :
  @IdParts string_errors "/web" = ("", "web", None).
Proof. reflexivity. Qed.

(** ** String slices *)

(** C10 as stated fails: an element that is neither nil nor a string makes
    the conversion panic. *)
Lemma ExpandStringSlice_panics_on_int :
  ExpandStringSlice [IString "a"; IInt 42] = Panic.
Proof. reflexivity. Qed.

(** C10, for the lists the provider passes: when every element is nil or a
    string, [ExpandStringSlice] returns a slice of the same length, with the
    empty string where the element is nil and the string itself elsewhere. *)
Theorem ExpandStringSlice_elements (s : list iface) :
  forallb nil_or_string s = true ->
  exists r : list string,
    ExpandStringSlice s = Ret r
    /\ length r = length s
    /\ forall (i : nat) (v : iface), s !! i = Some v ->
         (v = INil -> r !! i = Some "")
         /\ (forall x, v = IString x -> r !! i = Some x).
Proof.
  intros Hs. exists (map string_of s).
  split; [by apply ExpandStringSlice_strings|].
  split; [apply length_map|].
  intros i v Hv.
  assert (Hr : map string_of s !! i = Some (string_of v))
    by (by rewrite list_lookup_fmap, Hv).
  split; [intros ->|intros x ->]; exact Hr.
Qed.

Lemma ExpandStringSlice_elements_witness :
  forallb nil_or_string [IString "a"; INil; IString "c"] = true
  /\ exists r : list string,
      ExpandStringSlice [IString "a"; INil; IString "c"] = Ret r
      /\ length r = 3%nat
      /\ forall (i : nat) (v : iface), [IString "a"; INil; IString "c"] !! i = Some v ->
           (v = INil -> r !! i = Some "")
           /\ (forall x, v = IString x -> r !! i = Some x).
Proof.
  split; [reflexivity|].
  apply (ExpandStringSlice_elements [IString "a"; INil; IString "c"]). reflexivity.
Defined.

Example ExpandStringSlice_sample :
  ExpandStringSlice [IString "a"; INil; IString "c"] = Ret ["a"; ""; "c"].
Proof. reflexivity. Qed.

(** ** Node selector terms *)

Section NodeSelectorFacts.
Context `{SchemaSets}.

(** A flattened term stores its requirement lists as
    [[]map[string]interface{}], which is not the [[]interface{}] that
    [expandNodeSelectorTerm] asserts: the expanded term has no requirements. *)
Lemma expand_flattened_term (n : NodeSelectorTerm) :
  expandNodeSelectorTerm [nth 0 (flattenNodeSelectorTerm n) INil]
  = Ret NodeSelectorTerm_zero.
Proof.
  unfold flattenNodeSelectorTerm, expandNodeSelectorTerm, go_index, go_lookup.
  destruct (0 <? length (MatchExpressions n))%nat,
           (0 <? length (MatchFields n))%nat; simpl;
    by simplify_map_eq.
Qed.

Lemma expand_flattened_terms_from (in_ : list NodeSelectorTerm) (i : nat) :
  outcome_imap (fun _ n => expandNodeSelectorTerm [n]) i
    (map (fun n => nth 0 (flattenNodeSelectorTerm n) INil) in_)
  = Ret (map (fun _ => NodeSelectorTerm_zero) in_).
Proof.
  revert i. induction in_ as [|n in_ IH]; intros i; [reflexivity|].
  cbn [map outcome_imap]. rewrite expand_flattened_term, IH. reflexivity.
Qed.

(** C3, as the code has it: expanding the flattened list returns a list of
    the same length whose terms have neither match expressions nor match
    fields.  It is the original list exactly when no term of the original has
    any (nil and empty slices identified). *)
Theorem expand_flatten_NodeSelectorTerms (in_ : list NodeSelectorTerm) :
  expandNodeSelectorTerms (flattenNodeSelectorTerms in_)
  = Ret (map (fun _ => NodeSelectorTerm_zero) in_)
  /\ (expandNodeSelectorTerms (flattenNodeSelectorTerms in_) = Ret in_ <->
      Forall (fun n => MatchExpressions n = [] /\ MatchFields n = []) in_).
Proof.
  assert (Hexp : expandNodeSelectorTerms (flattenNodeSelectorTerms in_)
                 = Ret (map (fun _ => NodeSelectorTerm_zero) in_)).
  { unfold flattenNodeSelectorTerms. rewrite fill_pure_map.
    destruct in_ as [|n in_]; [reflexivity|].
    unfold expandNodeSelectorTerms.
    change (length (map _ (n :: in_)) =? 0)%nat with false. cbv iota.
    change (nth 0 (map (fun n => nth 0 (flattenNodeSelectorTerm n) INil) (n :: in_)) INil)
      with (nth 0 (flattenNodeSelectorTerm n) INil).
    unfold flattenNodeSelectorTerm at 1. cbn [nth].
    rewrite fill_by_index_imap. apply expand_flattened_terms_from. }
  split; [exact Hexp|]. rewrite Hexp. clear Hexp. split.
  - intros [= Heq]. induction in_ as [|n in_ IH]; [constructor|].
    injection Heq as Hn Heq. constructor; [|by apply IH].
    rewrite <- Hn. by split.
  - intros Hall. f_equal. induction Hall as [|n in_ [He Hf] _ IH]; [reflexivity|].
    simpl. rewrite IH. f_equal. destruct n; simpl in *; by subst.
Qed.
End NodeSelectorFacts.

(** C3 as stated fails: a term with one match expression comes back empty. *)
Lemma expand_flatten_loses_match_expressions :
  @expandNodeSelectorTerms listing_sets (flattenNodeSelectorTerms [sample_term])
  = Ret [NodeSelectorTerm_zero]
  /\ @expandNodeSelectorTerms listing_sets (flattenNodeSelectorTerms [sample_term])
     <> Ret [sample_term].
Proof. split; [vm_compute; reflexivity|vm_compute; discriminate]. Qed.

(** The flattened requirement list is a slice of maps. *)
Example flattenNodeSelectorTerm_sample :
  exists (att : gmap string iface) (req : gmap string iface),
    flattenNodeSelectorTerm sample_term = [IMap (Some att)]
    /\ att !! "match_expressions" = Some (ISliceMap [req])
    /\ att !! "match_fields" = None
    /\ req !! "key" = Some (IString "zone")
    /\ req !! "values" = Some (ISet [IString "a"; IString "b"])
    /\ slice_ok (ISliceMap [req]) = None.
Proof. eexists _, _. vm_compute. repeat split. Qed.

(** A requirement list read back as [[]interface{}], the form in which the
    SDK hands it to the expander, is expanded. *)
Example expandNodeSelectorRequirementList_sample :
  @expandNodeSelectorRequirementList listing_sets
    [IMap (Some {[ "key" := IString "zone"; "operator" := IString "In";
                   "values" := ISet [IString "a"; IString "b"] ]})]
  = Ret [{| Key := "zone"; Operator := "In"; Values := ["a"; "b"] |}].
Proof. vm_compute. reflexivity. Qed.

(** ** Waiting for the default service account *)

Section RetryFacts.
Context `{ApiErrors} `{!RetryTimeout}.

(** The loop skips the attempts that end in a retryable error and stops at
    the first one that does not. *)
Lemma retry_loop_stops (f : nat -> option RetryError) (n : nat) :
  forall (attempts start : nat) (resultErr : option error),
    (n < attempts)%nat ->
    (forall i, (i < n)%nat ->
               exists rerr, f (start + i)%nat = Some rerr /\ Retryable rerr = true) ->
    retry_loop attempts f start resultErr
    = match f (start + n)%nat with
      | None => None
      | Some rerr =>
          if Retryable rerr
          then retry_loop (attempts - S n) f (S (start + n)) (Some (Err rerr))
          else Some (Err rerr)
      end.
Proof.
  induction n as [|n IH]; intros attempts start resultErr Hlt Hpre.
  - destruct attempts as [|attempts]; [lia|]. simpl.
    rewrite Nat.add_0_r, Nat.sub_0_r. reflexivity.
  - destruct attempts as [|attempts]; [lia|]. simpl.
    destruct (Hpre 0%nat) as (rerr & Hf & Hretry); [lia|].
    rewrite Nat.add_0_r in Hf. rewrite Hf, Hretry.
    rewrite (IH attempts (S start)); [|lia|].
    + by replace (S start + n)%nat with (start + S n)%nat by lia.
    + intros i Hi. destruct (Hpre (S i)) as (r & Hr & Hrr); [lia|].
      exists r. split; [|exact Hrr]. by replace (S start + i)%nat with (start + S i)%nat by lia.
Qed.

(** C6: a failed [Get] is retryable exactly when its error is NotFound and
    non-retryable otherwise, a successful [Get] gives no error; and the loop,
    after any number of NotFound answers, ends without error at a successful
    [Get] and ends with the error at any other failure. *)
Theorem defaultServiceAccount_retry_classification :
  (forall err : error,
      exists rerr, defaultServiceAccountCreate_retryFunc (inr err) = Some rerr
                   /\ Err rerr = err
                   /\ (Retryable rerr = true <-> errors_IsNotFound err = true))
  /\ (forall sa : ServiceAccount, defaultServiceAccountCreate_retryFunc (inl sa) = None)
  /\ (forall (attempts n : nat) (gets : nat -> ServiceAccount + error),
         (n < attempts)%nat ->
         (forall i, (i < n)%nat ->
                    exists err, gets i = inr err /\ errors_IsNotFound err = true) ->
         (forall sa, gets n = inl sa ->
                     defaultServiceAccountCreate_wait attempts gets = None)
         /\ (forall err, gets n = inr err -> errors_IsNotFound err = false ->
                         defaultServiceAccountCreate_wait attempts gets = Some err)).
Proof.
  split; [|split].
  - intros err. unfold defaultServiceAccountCreate_retryFunc.
    destruct (errors_IsNotFound err); eexists; (split; [reflexivity|]); simpl; done.
  - reflexivity.
  - intros attempts n gets Hn Hpre.
    assert (Hloop := retry_loop_stops
                       (fun n => defaultServiceAccountCreate_retryFunc (gets n))
                       n attempts 0%nat None Hn).
    simpl in Hloop. unfold defaultServiceAccountCreate_wait, resource_RetryContext.
    rewrite Hloop.
    + split.
      * intros sa ->. reflexivity.
      * intros err -> Hnf. simpl. by rewrite Hnf.
    + intros i Hi. destruct (Hpre i Hi) as (err & -> & Hnf). simpl. rewrite Hnf.
      eexists. split; reflexivity.
Qed.
End RetryFacts.

Lemma defaultServiceAccount_retry_classification_witness :
  let gets := fun n : nat =>
    match n with
    | 0%nat | 1%nat => inr ("not found" : @error string_errors)
    | 2%nat => inl {| sa_ObjectMeta := sample_meta |}
    | _ => inr ("forbidden" : @error string_errors)
    end in
  let denied := fun n : nat =>
    match n with
    | 0%nat => inr ("not found" : @error string_errors)
    | _ => inr ("forbidden" : @error string_errors)
    end in
  (2 < 5)%nat
  /\ (forall i, (i < 2)%nat ->
        exists err, gets i = inr err /\ @errors_IsNotFound _ text_api_errors err = true)
  /\ @defaultServiceAccountCreate_wait _ text_api_errors text_timeout 5 gets = None
  /\ @defaultServiceAccountCreate_wait _ text_api_errors text_timeout 5 denied
     = Some "forbidden".
Proof.
  intros gets denied.
  pose proof (@defaultServiceAccount_retry_classification
                string_errors text_api_errors text_timeout) as (_ & _ & Hloop).
  assert (Hpre : forall i, (i < 2)%nat ->
            exists err, gets i = inr err /\ @errors_IsNotFound _ text_api_errors err = true).
  { intros i Hi. destruct i as [|[|i]]; [by eexists| by eexists|lia]. }
  split; [lia|]. split; [exact Hpre|]. split.
  - apply (proj1 (Hloop 5%nat 2%nat gets ltac:(lia) Hpre) {| sa_ObjectMeta := sample_meta |}).
    reflexivity.
  - apply (proj2 (Hloop 5%nat 1%nat denied ltac:(lia)
                    ltac:(intros i Hi; destruct i; [by eexists|lia]))).
    + reflexivity.
    + reflexivity.
Defined.

Example defaultServiceAccount_never_found :
  @defaultServiceAccountCreate_wait _ text_api_errors text_timeout 3
    (fun _ => inr ("not found" : @error string_errors))
  = Some "not found".
Proof. reflexivity. Qed.

(** ** Reading a namespace *)


#[local] Set Warnings "-clear-no-such-hyp".

Section NamespaceFacts.
Context `{NetURL} `{Regexp} `{!PluginSDK}.


End NamespaceFacts.


(** The namespace is missing: the ID is set, the [Get] fails, nothing is written. *)
Example dataSourceKubernetesNamespaceRead_missing :
  match @dataSourceKubernetesNamespaceRead go_net_url string_errors literal_regexp
          storing_sdk sample_namespace_data (MetaClientsets missing_clients) with
  | Ret (diags, d', log) =>
      diags = [DiagError ("not found" : @error string_errors)]
      /\ rd_Id d' = "prod"
      /\ log = [EvMainClientset true; EvSetId "prod"; EvNamespacesGet "prod" false]
  | Panic => False
  end.
Proof. vm_compute. repeat split. Qed.


(** The namespace exists: both attributes are written, no diagnostics. *)
Example dataSourceKubernetesNamespaceRead_found :
  match @dataSourceKubernetesNamespaceRead go_net_url string_errors literal_regexp
          storing_sdk sample_namespace_data (MetaClientsets serving_clients) with
  | Ret (diags, d', log) =>
      diags = []
      /\ rd_Id d' = "prod"
      /\ log = [EvMainClientset true; EvSetId "prod"; EvNamespacesGet "prod" true;
                EvSet "metadata" true; EvSet "spec" true]
      /\ rd_Get d' "spec"
         = ISlice [IMap (Some {[ "finalizers" := ISliceString ["kubernetes"] ]})]
  | Panic => False
  end.
Proof. vm_compute. repeat split. Qed.

(** The schema refuses the metadata: the first [Set] fails and ends the read. *)
Example dataSourceKubernetesNamespaceRead_refused :
  match @dataSourceKubernetesNamespaceRead go_net_url string_errors literal_regexp
          refusing_sdk sample_namespace_data (MetaClientsets serving_clients) with
  | Ret (diags, d', log) =>
      diags = [DiagError ("Invalid address to set" : @error string_errors)]
      /\ log = [EvMainClientset true; EvSetId "prod"; EvNamespacesGet "prod" true;
                EvSet "metadata" false]
  | Panic => False
  end.
Proof. vm_compute. repeat split. Qed.

(** ** Limit ranges *)

Section LimitRangeFacts.
Context `{Quantities}.

Lemma try_bind_inl {A B} (m : outcome (A + error)) (f : A -> outcome (B + error)) x :
  m = Ret (inl x) -> try_bind m f = f x.
Proof. by intros ->. Qed.

Lemma try_bind_inr {A B} (m : outcome (A + error)) (f : A -> outcome (B + error)) err :
  m = Ret (inr err) -> try_bind m f = Ret (inr err).
Proof. by intros ->. Qed.

Lemma try_bind_ok_inv {A B} (m : outcome (A + error)) (f : A -> outcome (B + error)) y :
  try_bind m f = Ret (inl y) -> exists x, m = Ret (inl x) /\ f x = Ret (inl y).
Proof.
  destruct m as [[x|err]|]; simpl; [|discriminate..]. intros Hf. by exists x.
Qed.

Lemma try_bind_returns {A B} (m : outcome (A + error)) (f : A -> outcome (B + error)) :
  (exists r, m = Ret r) -> (forall x, exists r, f x = Ret r) ->
  exists r, try_bind m f = Ret r.
Proof.
  intros [[x|err] ->] Hf; simpl; [apply Hf|by eexists].
Qed.

Lemma expand_limit_field_typed (limit : gomap iface) (key : string) :
  field_typed limit key = true -> exists r, expand_limit_field limit key = Ret r.
Proof.
  unfold field_typed, expand_limit_field.
  destruct (go_lookup limit key) as [[]|]; try discriminate; intros _; simpl;
    [destruct (ExpandMapToResourceList m) as [el [err|]]|]; by eexists.
Qed.

Lemma expand_default_request_typed (isNew : bool) (i : nat) (type : string)
    (limit : gomap iface) :
  field_typed limit "default_request" = true ->
  exists r, expand_default_request isNew i type limit = Ret r.
Proof.
  unfold field_typed, expand_default_request.
  destruct (go_lookup limit "default_request") as [[]|]; try discriminate;
    intros _; simpl; [|by eexists].
  destruct (_ && _); [destruct isNew; by eexists|].
  destruct (ExpandMapToResourceList m) as [el [err|]]; by eexists.
Qed.

Lemma expand_limit_typed (isNew : bool) (i : nat) (l : iface) :
  limit_typed l = true -> exists r, expand_limit isNew i l = Ret r.
Proof.
  destruct l as [| | | | |limit| | | | |]; try discriminate. simpl.
  rewrite !andb_true_iff. intros [[[[[Htype Hdr] Hd] Hmax] Hratio] Hmin].
  unfold expand_limit. simpl.
  assert (Htype' : exists type, match go_lookup limit "type" with
                                | Some v => assert_string v
                                | None => Ret ""
                                end = Ret type).
  { destruct (go_lookup limit "type") as [[]|]; try discriminate; by eexists. }
  destruct Htype' as [type ->]. simpl.
  apply try_bind_returns; [by apply expand_default_request_typed|]. intros dr.
  apply try_bind_returns; [by apply expand_limit_field_typed|]. intros df.
  apply try_bind_returns; [by apply expand_limit_field_typed|]. intros mx.
  apply try_bind_returns; [by apply expand_limit_field_typed|]. intros rt.
  apply try_bind_returns; [by apply expand_limit_field_typed|]. intros mn.
  by eexists.
Qed.

Lemma pod_with_default_request_inv (limit : gomap iface) :
  pod_with_default_request limit = true ->
  go_lookup limit "type" = Some (IString "Pod")
  /\ exists drm, go_lookup limit "default_request" = Some (IMap drm)
                 /\ (0 <? go_len drm)%nat = true.
Proof.
  unfold pod_with_default_request, limit_type.
  rewrite andb_true_iff. intros [Htype Hdr]. split.
  - destruct (go_lookup limit "type") as [[]|]; simpl in Htype; try discriminate.
    by apply String.eqb_eq in Htype as ->.
  - destruct (go_lookup limit "default_request") as [[]|]; try discriminate.
    by eexists.
Qed.

(** A new Pod limit with default requests makes the iteration return an error. *)
Lemma expand_limit_pod_new (i : nat) (limit : gomap iface) :
  pod_with_default_request limit = true ->
  exists err, expand_limit true i (IMap limit) = Ret (inr err).
Proof.
  intros Hpod.
  destruct (pod_with_default_request_inv limit Hpod) as (Htype & drm & Hdr & Hlen).
  unfold expand_limit, expand_default_request. simpl.
  rewrite Htype. simpl. rewrite Hdr. simpl. rewrite Hlen. simpl. by eexists.
Qed.

Lemma expand_limits_pod_new (limits : list iface) :
  forall (j i : nat) (limit : gomap iface),
    forallb limit_typed limits = true ->
    limits !! i = Some (IMap limit) ->
    pod_with_default_request limit = true ->
    exists err, expand_limits true j limits = Ret (inr err).
Proof.
  induction limits as [|l limits IH]; intros j i limit Htyped Hi Hpod; [done|].
  simpl in Htyped. apply andb_prop in Htyped as [Hl Hls]. simpl.
  destruct i as [|i]; simpl in Hi.
  - injection Hi as ->. destruct (expand_limit_pod_new j limit Hpod) as [err ->].
    by exists err.
  - destruct (expand_limit_typed true j l Hl) as [[item|err] ->]; simpl; [|by eexists].
    destruct (IH (S j) i limit Hls Hi Hpod) as [err ->]. by exists err.
Qed.

Lemma expand_limits_ok_inv (isNew : bool) (limits : list iface) :
  forall (j : nat) (items : list LimitRangeItem),
    expand_limits isNew j limits = Ret (inl items) ->
    Forall2 (fun l item => exists k, expand_limit isNew k l = Ret (inl item)) limits items.
Proof.
  induction limits as [|l limits IH]; intros j items; simpl.
  - intros [= <-]. constructor.
  - intros (item & Hitem & (rest & Hrest & [= <-])%try_bind_ok_inv)%try_bind_ok_inv.
    constructor; [by exists j|]. by apply (IH (S j)).
Qed.

Lemma expand_limit_field_ok (limit : gomap iface) (key : string) (field : gomap Quantity) :
  expand_limit_field limit key = Ret (inl field) -> field_expanded limit key field.
Proof.
  unfold expand_limit_field, field_expanded.
  destruct (go_lookup limit key) as [v|]; [|by intros [= <-]].
  destruct v; simpl; try discriminate.
  destruct (ExpandMapToResourceList m) as [el [err|]] eqn:Hel; [discriminate|].
  intros [= <-]. by exists m, el.
Qed.

Lemma expand_default_request_ok (i : nat) (type : string) (limit : gomap iface)
    (field : gomap Quantity) :
  expand_default_request false i type limit = Ret (inl field) ->
  match go_lookup limit "default_request" with
  | Some (IMap drm) =>
      if String.eqb type "Pod" && (0 <? go_len drm)%nat then field = None
      else field_expanded limit "default_request" field
  | _ => field_expanded limit "default_request" field
  end.
Proof.
  unfold expand_default_request, field_expanded.
  destruct (go_lookup limit "default_request") as [v|]; [|by intros [= <-]].
  destruct v; simpl; try discriminate.
  change LimitTypePod with "Pod".
  destruct (String.eqb type "Pod" && (0 <? go_len m)%nat); [by intros [= <-]|].
  destruct (ExpandMapToResourceList m) as [el [err|]] eqn:Hel; [discriminate|].
  intros [= <-]. by exists m, el.
Qed.

(** What an iteration of an update puts in the item it builds. *)
Lemma expand_limit_ok_inv (k : nat) (l : iface) (item : LimitRangeItem) :
  expand_limit false k l = Ret (inl item) ->
  exists limit, l = IMap limit
    /\ Type_ item = limit_type limit
    /\ (pod_with_default_request limit = true -> DefaultRequest item = None)
    /\ (pod_with_default_request limit = false ->
        field_expanded limit "default_request" (DefaultRequest item))
    /\ field_expanded limit "default" (Default item)
    /\ field_expanded limit "max" (Max item)
    /\ field_expanded limit "min" (Min item)
    /\ field_expanded limit "max_limit_request_ratio" (MaxLimitRequestRatio item).
Proof.
  unfold expand_limit. destruct l as [| | | | |limit| | | | |]; try discriminate. simpl.
  destruct (match go_lookup limit "type" with
            | Some v => assert_string v
            | None => Ret ""
            end) as [type|] eqn:Htype; [|discriminate]. simpl.
  assert (Hlt : type = limit_type limit).
  { unfold limit_type. destruct (go_lookup limit "type") as [[]|];
      simpl in Htype; try discriminate; by injection Htype. }
  intros (dr & Hdr & (df & Hdf & (mx & Hmx & (rt & Hrt & (mn & Hmn & [= <-])
    %try_bind_ok_inv)%try_bind_ok_inv)%try_bind_ok_inv)%try_bind_ok_inv)%try_bind_ok_inv.
  exists limit. simpl. split; [reflexivity|]. split; [exact Hlt|].
  apply expand_default_request_ok in Hdr. rewrite Hlt in Hdr.
  split; [|split; [|by repeat split; apply expand_limit_field_ok]].
  - unfold pod_with_default_request.
    destruct (go_lookup limit "default_request") as [[]|];
      rewrite ?andb_false_r; try discriminate.
    intros Hpod. by rewrite Hpod in Hdr.
  - unfold pod_with_default_request. intros Hnot.
    destruct (go_lookup limit "default_request") as [[]|]; try exact Hdr.
    by rewrite Hnot in Hdr.
Qed.
Lemma expand_limit_field_converts (limit : gomap iface) (key : string) :
  field_converts limit key = true ->
  exists field, expand_limit_field limit key = Ret (inl field).
Proof.
  unfold field_converts, expand_limit_field.
  destruct (go_lookup limit key) as [[]|]; try discriminate; simpl; [|by eexists].
  destruct (ExpandMapToResourceList m) as [el [err|]]; simpl; [discriminate|by eexists].
Qed.

Lemma expand_default_request_converts (i : nat) (limit : gomap iface) :
  pod_with_default_request limit || field_converts limit "default_request" = true ->
  exists field, expand_default_request false i (limit_type limit) limit = Ret (inl field).
Proof.
  unfold pod_with_default_request, field_converts, expand_default_request.
  change LimitTypePod with "Pod".
  destruct (go_lookup limit "default_request") as [[]|];
    rewrite ?andb_false_r; try discriminate; simpl; [|by eexists].
  destruct (String.eqb (limit_type limit) "Pod" && (0 <? go_len m)%nat); simpl;
    [by eexists|].
  destruct (ExpandMapToResourceList m) as [el [err|]]; simpl; [discriminate|by eexists].
Qed.

Lemma expand_limit_convertible (k : nat) (l : iface) :
  limit_convertible l = true -> exists item, expand_limit false k l = Ret (inl item).
Proof.
  destruct l as [| | | | |limit| | | | |]; try discriminate.
  unfold limit_convertible. rewrite !andb_true_iff.
  intros [[[[[Htyped Hdr] Hd] Hmax] Hratio] Hmin].
  unfold expand_limit. simpl.
  assert (Htype : match go_lookup limit "type" with
                  | Some v => assert_string v
                  | None => Ret ""
                  end = Ret (limit_type limit)).
  { simpl in Htyped. rewrite !andb_true_iff in Htyped.
    destruct Htyped as [[[[[Htype _] _] _] _] _]. unfold limit_type.
    by destruct (go_lookup limit "type") as [[]|]. }
  rewrite Htype. simpl.
  destruct (expand_default_request_converts k limit Hdr) as [dr ->].
  destruct (expand_limit_field_converts limit "default" Hd) as [df ->].
  destruct (expand_limit_field_converts limit "max" Hmax) as [mx ->].
  destruct (expand_limit_field_converts limit "max_limit_request_ratio" Hratio) as [rt ->].
  destruct (expand_limit_field_converts limit "min" Hmin) as [mn ->].
  simpl. by eexists.
Qed.

Lemma expand_limits_convertible (limits : list iface) :
  forall j, forallb limit_convertible limits = true ->
            exists items, expand_limits false j limits = Ret (inl items).
Proof.
  induction limits as [|l limits IH]; intros j Hall; simpl; [by eexists|].
  simpl in Hall. apply andb_prop in Hall as [Hl Hls].
  destruct (expand_limit_convertible j l Hl) as [item ->].
  destruct (IH (S j) Hls) as [items ->]. simpl. by eexists.
Qed.

Lemma expand_limits_pod_new_fails (limits : list iface) :
  forall (j i : nat) (limit : gomap iface) (items : list LimitRangeItem),
    limits !! i = Some (IMap limit) ->
    pod_with_default_request limit = true ->
    expand_limits true j limits <> Ret (inl items).
Proof.
  induction limits as [|l limits IH]; intros j i limit items Hi Hpod; [done|].
  simpl. destruct i as [|i]; simpl in Hi.
  - injection Hi as ->. destruct (expand_limit_pod_new j limit Hpod) as [err ->].
    discriminate.
  - intros (item & _ & (rest & Hrest & _)%try_bind_ok_inv)%try_bind_ok_inv.
    by apply (IH (S j) i limit rest Hi Hpod).
Qed.

(** C9: with [isNew], a Pod limit that carries default requests keeps
    [ExpandLimitRangeSpec] from succeeding, and makes it return an error when
    the entries have the shape of the schema.  Without [isNew] the default
    requests of such a limit are left out of the item, without any error,
    while [default], [max], [min] and [max_limit_request_ratio] of every
    entry are expanded. *)
Theorem ExpandLimitRangeSpec_pod_default_request (m : gomap iface)
    (rest limits : list iface) :
  go_index m "limit" = ISlice limits ->
  ((exists i limit, limits !! i = Some (IMap limit)
                    /\ pod_with_default_request limit = true) ->
   (forall out, ExpandLimitRangeSpec (IMap m :: rest) true <> Ret (out, None))
   /\ (forallb limit_typed limits = true ->
       exists err, ExpandLimitRangeSpec (IMap m :: rest) true
                   = Ret ({| Limits := [] |}, Some err)))
  /\ (forall out, ExpandLimitRangeSpec (IMap m :: rest) false = Ret (out, None) ->
        length (Limits out) = length limits
        /\ forall i l item, limits !! i = Some l -> Limits out !! i = Some item ->
             exists limit, l = IMap limit
               /\ (pod_with_default_request limit = true -> DefaultRequest item = None)
               /\ field_expanded limit "default" (Default item)
               /\ field_expanded limit "max" (Max item)
               /\ field_expanded limit "min" (Min item)
               /\ field_expanded limit "max_limit_request_ratio"
                    (MaxLimitRequestRatio item))
  /\ (forallb limit_convertible limits = true ->
      exists out, ExpandLimitRangeSpec (IMap m :: rest) false = Ret (out, None)).
Proof.
  intros Hlimit. unfold ExpandLimitRangeSpec. simpl. rewrite Hlimit. simpl.
  split; [|split].
  - intros (i & limit & Hi & Hpod). split.
    + intros out.
      destruct (expand_limits true 0 limits) as [[items|err]|] eqn:Hitems;
        simpl; try discriminate.
      by destruct (expand_limits_pod_new_fails limits 0 i limit items Hi Hpod).
    + intros Htyped.
      destruct (expand_limits_pod_new limits 0 i limit Htyped Hi Hpod) as [err ->].
      by exists err.
  - intros out Hout.
    destruct (expand_limits false 0 limits) as [[items|err]|] eqn:Hitems;
      simpl in Hout; try discriminate.
    injection Hout as <-. simpl.
    apply expand_limits_ok_inv in Hitems.
    split; [symmetry; by eapply Forall2_length|].
    intros i l item Hl Hitem.
    destruct (Forall2_lookup_lr _ _ _ _ _ _ Hitems Hl Hitem) as [k Hk].
    destruct (expand_limit_ok_inv k l item Hk)
      as (limit & -> & _ & Hpod & _ & Hd & Hmax & Hmin & Hratio).
    by exists limit.
  - intros Hall. destruct (expand_limits_convertible limits 0 Hall) as [items ->].
    simpl. by eexists.
Qed.
End LimitRangeFacts.

Lemma ExpandLimitRangeSpec_pod_default_request_witness :
  go_index sample_limit_spec "limit" = ISlice sample_limits
  /\ forallb (@limit_typed) sample_limits = true
  /\ (exists i limit, sample_limits !! i = Some (IMap limit)
                      /\ pod_with_default_request limit = true)
  /\ (exists err, @ExpandLimitRangeSpec string_errors decimal_quantities
                    [IMap sample_limit_spec] true
                  = Ret ({| Limits := [] |}, Some err))
  /\ forallb (@limit_convertible string_errors decimal_quantities) sample_limits = true
  /\ exists out, @ExpandLimitRangeSpec string_errors decimal_quantities
                   [IMap sample_limit_spec] false = Ret (out, None)
                 /\ length (Limits out) = length sample_limits.
Proof.
  pose proof (@ExpandLimitRangeSpec_pod_default_request string_errors decimal_quantities
                sample_limit_spec [] sample_limits eq_refl) as (Hnew & Hitems & Hupdate).
  assert (Htyped : forallb (@limit_typed) sample_limits = true) by (vm_compute; reflexivity).
  assert (Hpod : exists i limit, sample_limits !! i = Some (IMap limit)
                                 /\ pod_with_default_request limit = true).
  { exists 1%nat. eexists. split; [reflexivity|]. vm_compute. reflexivity. }
  assert (Hconv : forallb (@limit_convertible string_errors decimal_quantities)
                    sample_limits = true) by (vm_compute; reflexivity).
  split; [vm_compute; reflexivity|]. split; [exact Htyped|]. split; [exact Hpod|].
  split; [exact (proj2 (Hnew Hpod) Htyped)|]. split; [exact Hconv|].
  destruct (Hupdate Hconv) as [out Hout].
  exists out. split; [exact Hout|]. exact (proj1 (Hitems out Hout)).
Defined.

(** On creation the Pod limit is refused; on update its default request is
    dropped without being looked at, and the other lists are expanded. *)
Example ExpandLimitRangeSpec_sample :
  @ExpandLimitRangeSpec string_errors decimal_quantities [IMap sample_limit_spec] true
  = Ret ({| Limits := [] |},
         Some ("limit.%d.default_request cannot be set for Pod limit"
               : @error string_errors))
  /\ @ExpandLimitRangeSpec string_errors decimal_quantities [IMap sample_limit_spec] false
     = Ret ({| Limits :=
                 [ {| Type_ := "Container"; Max := None; Min := None;
                      Default := Some {[ "cpu" := 2 ]}; DefaultRequest := None;
                      MaxLimitRequestRatio := None |};
                   {| Type_ := "Pod"; Max := Some {[ "memory" := 4 ]}; Min := None;
                      Default := None; DefaultRequest := None;
                      MaxLimitRequestRatio := None |} ] |}, None).
Proof. split; vm_compute; reflexivity. Qed.

(** A Pod limit with an empty default request is expanded like any other. *)
Example ExpandLimitRangeSpec_empty_default_request :
  @ExpandLimitRangeSpec string_errors decimal_quantities
    [IMap (Some {[ "limit" :=
                     ISlice [IMap (Some {[ "type" := IString "Pod";
                                           "default_request" := IMap (Some ∅) ]})] ]})]
    true
  = Ret ({| Limits :=
              [ {| Type_ := "Pod"; Max := None; Min := None; Default := None;
                   DefaultRequest := Some ∅; MaxLimitRequestRatio := None |} ] |}, None).
Proof. vm_compute. reflexivity. Qed.

(** * Further properties of the code *)

(** ** Identifiers, read back *)

Lemma strings_Split_head (s : string) (sep : ascii) (p : string) (ps : list string) :
  strings_Split s sep = p :: ps ->
  length (filter (fun c => c = sep) (list_ascii_of_string p)) = 0%nat
  /\ ((ps = [] /\ s = p)
      \/ exists s', s = p ++ String sep s' /\ strings_Split s' sep = ps).
Proof.
  revert p ps. induction s as [|c s IH]; intros p ps; simpl.
  - intros [= <- <-]. split; [reflexivity|]. by left.
  - destruct (Ascii.eqb_spec c sep) as [->|Hne].
    + intros [= <- <-]. split; [reflexivity|]. right. by exists s.
    + destruct (strings_Split s sep) as [|p' ps'] eqn:Hs.
      * pose proof (strings_Split_length s sep) as Hlen. rewrite Hs in Hlen.
        discriminate.
      * intros [= <- <-]. destruct (IH p' ps' eq_refl) as (Hp & Hcase).
        split; [simpl; by rewrite filter_cons_False|].
        destruct Hcase as [[-> ->]|(s' & -> & Hs')]; [by left|].
        right. by exists s'.
Qed.

Section IdentifiersReadBack.
Context `{GoErrors}.

(** X1: an identifier that [IdParts] accepts is the namespace, a slash and
    the name it returns, neither of which holds a slash, so [BuildId] gives
    the identifier back; when it reports an error both parts are empty. *)
Theorem IdParts_rebuilds (id : string) :
  match IdParts id with
  | (ns, name, None) =>
      BuildId {| Name := name; GenerateName := ""; Namespace := ns;
                 ResourceVersion := ""; UID := ""; Generation := 0;
                 Labels := None; Annotations := None |} = id
      /\ slashes ns = 0%nat /\ slashes name = 0%nat
  | (ns, name, Some _) => ns = "" /\ name = ""
  end.
Proof.
  unfold IdParts, BuildId. simpl.
  destruct (strings_Split id "/") as [|a [|b [|c rest]]] eqn:Hsplit; simpl; try done.
  destruct (strings_Split_head _ _ _ _ Hsplit) as (Ha & [[? _]|(s' & -> & Hs')]);
    [discriminate|].
  destruct (strings_Split_head _ _ _ _ Hs') as (Hb & [[_ ->]|(x & _ & Hx)]).
  - done.
  - pose proof (strings_Split_length x "/") as Hlen. rewrite Hx in Hlen.
    discriminate.
Qed.
End IdentifiersReadBack.

(** ** Maps and slices of strings *)

Lemma ExpandStringMap_cases (g : gmap string iface) :
  match ExpandStringMap (Some g) with
  | Ret r => (forall k v, g !! k = Some v -> exists s, v = IString s)
             /\ r = string_of <$> g
  | Panic => exists k v, g !! k = Some v /\ forall s, v <> IString s
  end.
Proof.
  unfold ExpandStringMap.
  apply (map_fold_weak_ind
           (fun acc m =>
              match acc with
              | Ret r' => (forall k v, m !! k = Some v -> exists s, v = IString s)
                          /\ r' = string_of <$> m
              | Panic => exists k v, m !! k = Some v /\ forall s, v <> IString s
              end)).
  - split; [intros k v; by rewrite lookup_empty|by rewrite fmap_empty].
  - intros i x m acc Hi IH. destruct acc as [r'|]; simpl.
    + destruct IH as [Hall ->]. destruct x; simpl;
        try (exists i; eexists; split; [apply lookup_insert_eq|done]).
      split; [|by rewrite fmap_insert].
      intros k v. destruct (decide (k = i)) as [->|Hne].
      * rewrite lookup_insert_eq. intros [= <-]. by eexists.
      * rewrite lookup_insert_ne by done. apply Hall.
    + destruct IH as (k & v & Hk & Hv). exists k, v. split; [|exact Hv].
      rewrite lookup_insert_ne; [exact Hk|]. intros ->. congruence.
Qed.

(** X2: [ExpandStringMap] returns exactly when every value of the map is a
    string, and then returns the same keys with those strings; a nil map
    gives an empty one. *)
Theorem ExpandStringMap_strings (g : gmap string iface) (r : gmap string string) :
  (ExpandStringMap (Some g) = Ret r <->
   (forall k v, g !! k = Some v -> exists s, v = IString s) /\ r = string_of <$> g)
  /\ ExpandStringMap None = Ret ∅.
Proof.
  split; [|reflexivity].
  pose proof (ExpandStringMap_cases g) as Hfold.
  destruct (ExpandStringMap (Some g)) as [r'|]; split.
  - intros [= <-]. exact Hfold.
  - intros [_ ->]. by destruct Hfold as [_ ->].
  - discriminate.
  - intros [Hall _]. destruct Hfold as (k & v & Hk & Hv).
    destruct (Hall k v Hk) as [s ->]. by destruct (Hv s).
Qed.

Lemma SliceOfString_imap (s : list iface) :
  SliceOfString s = outcome_imap (fun _ v => assert_string v) 0 s.
Proof. apply fill_by_index_imap. Qed.

(** X3: [SliceOfString] returns exactly when every element is a string, and
    then returns those strings; on such a list [ExpandStringSlice] returns
    the same slice.  A nil element, which [ExpandStringSlice] reads as the
    empty string, makes [SliceOfString] panic. *)
Theorem SliceOfString_strings (s : list iface) (r : list string) :
  (SliceOfString s = Ret r <-> s = map IString r)
  /\ ExpandStringSlice (map IString r) = Ret r
  /\ (In INil s -> SliceOfString s = Panic).
Proof.
  split; [|split].
  - rewrite SliceOfString_imap, (outcome_imap_ret assert_string). split.
    + intros Hr. induction Hr as [|v x s r Hv _ IH]; [reflexivity|].
      simpl. rewrite <- IH. destruct v; try discriminate. by injection Hv as ->.
    + intros ->. induction r as [|x r IH]; constructor; [reflexivity|exact IH].
  - rewrite ExpandStringSlice_strings.
    + f_equal. induction r as [|x r IH]; simpl; congruence.
    + induction r; simpl; auto.
  - intros Hnil. rewrite SliceOfString_imap.
    generalize 0%nat. induction s as [|v s IH]; intros i; [done|].
    simpl. destruct Hnil as [->|Hnil]; [reflexivity|].
    destruct (assert_string v); [|reflexivity]. simpl.
    by rewrite (IH Hnil).
Qed.

Lemma SliceOfString_strings_witness :
  In INil [IString "a"; INil]
  /\ SliceOfString [IString "a"; INil] = Panic
  /\ ExpandStringSlice [IString "a"; INil] = Ret ["a"; ""].
Proof.
  split; [right; left; reflexivity|]. split; [|reflexivity].
  apply (proj2 (proj2 (SliceOfString_strings [IString "a"; INil] []))).
  right. left. reflexivity.
Defined.

(** ** Filtering, as a whole *)

Lemma gomap_eq {V} (a b : gomap V) :
  (a = None <-> b = None) ->
  (forall k, go_lookup a k = go_lookup b k) -> a = b.
Proof.
  destruct a as [g|], b as [g'|]; simpl; intros Hnone Hlookup.
  - f_equal. by apply map_eq.
  - destruct Hnone as [_ Hnone]. by discriminate Hnone.
  - destruct Hnone as [Hnone _]. by discriminate Hnone.
  - reflexivity.
Qed.

Section FilteringAsAWhole.
Context `{NetURL} `{Regexp}.

Lemma removeInternalKeys_nil (m : gomap string) (d : gomap iface) :
  removeInternalKeys m d = None <-> m = None.
Proof. by destruct m. Qed.

Lemma removeKeys_nil (m : gomap string) (d : gomap iface) (expressions : list string) :
  removeKeys m d expressions = None <-> m = None.
Proof. by destruct m. Qed.

(** X4: the two filters commute and each of them is idempotent: filtering
    again, or in the other order, gives the same map. *)
Theorem filters_commute (m : gomap string) (d : gomap iface) (expressions : list string) :
  removeKeys (removeInternalKeys m d) d expressions
  = removeInternalKeys (removeKeys m d expressions) d
  /\ removeInternalKeys (removeInternalKeys m d) d = removeInternalKeys m d
  /\ removeKeys (removeKeys m d expressions) d expressions = removeKeys m d expressions.
Proof.
  repeat split; apply gomap_eq;
    rewrite ?removeKeys_nil, ?removeInternalKeys_nil, ?removeKeys_nil; try done;
    intros k; rewrite ?removeKeys_lookup, ?removeInternalKeys_lookup, ?removeKeys_lookup;
    by destruct (IsInternalKey k), (ignoreKey k expressions), (IsKeyInMap k d).
Qed.

(** X5: after both filters an entry of the server's map is still there, with
    its value, exactly when the user configured its key or the key is neither
    internal nor ignored; nothing is ever added or changed. *)
Theorem filtering_keeps_exactly (m : gomap string) (d : gomap iface)
    (expressions : list string) (k : string) :
  go_lookup (removeKeys (removeInternalKeys m d) d expressions) k
  = if (IsInternalKey k || ignoreKey k expressions) && negb (IsKeyInMap k d)
    then None else go_lookup m k.
Proof.
  rewrite removeKeys_lookup, removeInternalKeys_lookup.
  by destruct (IsInternalKey k), (ignoreKey k expressions), (IsKeyInMap k d).
Qed.

(** X6: without ignore expressions [removeKeys] returns the map as it is, and
    when the user configured every key of the map neither filter removes
    anything. *)
Theorem filters_leave_alone (m : gomap string) (d : gomap iface)
    (expressions : list string) :
  removeKeys m d [] = m
  /\ ((forall k, is_Some (go_lookup m k) -> IsKeyInMap k d = true) ->
      removeKeys (removeInternalKeys m d) d expressions = m).
Proof.
  split.
  - apply gomap_eq; [apply removeKeys_nil|]. intros k. by rewrite removeKeys_lookup.
  - intros Hcfg. apply gomap_eq.
    + by rewrite removeKeys_nil, removeInternalKeys_nil.
    + intros k. rewrite removeKeys_lookup, removeInternalKeys_lookup.
      destruct (go_lookup m k) as [v|] eqn:Hk.
      * rewrite (Hcfg k) by (rewrite Hk; eauto). simpl. by rewrite !andb_false_r.
      * by destruct (ignoreKey k expressions && negb (IsKeyInMap k d)),
                    (IsInternalKey k && negb (IsKeyInMap k d)).
Qed.
End FilteringAsAWhole.

Lemma filters_leave_alone_witness :
  let m : gomap string := Some {[ "node.kubernetes.io/role" := "edge" ]} in
  (forall k, is_Some (go_lookup m k) -> IsKeyInMap k sample_config_annotations = true)
  /\ @removeKeys string_errors literal_regexp
       (@removeInternalKeys go_net_url m sample_config_annotations)
       sample_config_annotations ["kubernetes"] = m.
Proof.
  intros m.
  assert (Hcfg : forall k, is_Some (go_lookup m k) ->
                           IsKeyInMap k sample_config_annotations = true).
  { intros k [v Hk]. unfold m in Hk. simpl in Hk.
    apply lookup_singleton_Some in Hk as [<- _]. vm_compute. reflexivity. }
  split; [exact Hcfg|].
  exact (proj2 (@filters_leave_alone go_net_url string_errors literal_regexp
                  m sample_config_annotations ["kubernetes"]) Hcfg).
Defined.

(** ** Flattened metadata *)

Section FlattenedMetadata.
Context `{NetURL} `{Regexp}.

(** X7: the flattened metadata always holds the name, the resource version,
    the UID and the generation of the object, and holds [generate_name] and
    [namespace] exactly when they are not empty. *)
Theorem FlattenMetadata_fields (meta : ObjectMeta) (d : ResourceData)
    (clients : KubeClientsets) (metaPrefix : list string)
    (configAnnotations configLabels : gomap iface) :
  rd_Get d (hd "" metaPrefix ++ "metadata.0.annotations") = IMap configAnnotations ->
  rd_Get d (hd "" metaPrefix ++ "metadata.0.labels") = IMap configLabels ->
  ignore_list_ok (rd_Get (ConfigData clients) "ignore_annotations") = true ->
  ignore_list_ok (rd_Get (ConfigData clients) "ignore_labels") = true ->
  exists m : gmap string iface,
    FlattenMetadata meta d (MetaClientsets clients) metaPrefix = Ret [IMap (Some m)]
    /\ m !! "name" = Some (IString (Name meta))
    /\ m !! "resource_version" = Some (IString (ResourceVersion meta))
    /\ m !! "uid" = Some (IString (UID meta))
    /\ m !! "generation" = Some (IInt64 (Generation meta))
    /\ m !! "generate_name"
       = (if String.eqb (GenerateName meta) "" then None
          else Some (IString (GenerateName meta)))
    /\ m !! "namespace"
       = (if String.eqb (Namespace meta) "" then None
          else Some (IString (Namespace meta))).
Proof.
  intros Ha Hl Hia Hil. unfold FlattenMetadata.
  replace (match metaPrefix with p :: _ => p | [] => "" end) with (hd "" metaPrefix)
    by (by destruct metaPrefix).
  rewrite Ha, Hl. simpl.
  unfold ignore_list_ok in *.
  destruct (slice_ok (rd_Get (ConfigData clients) "ignore_annotations")) as [ia|];
    [rewrite (ExpandStringSlice_strings ia Hia)|]; simpl;
    (destruct (slice_ok (rd_Get (ConfigData clients) "ignore_labels")) as [il|];
     [rewrite (ExpandStringSlice_strings il Hil)|]; simpl);
    eexists; (split; [reflexivity|]);
    destruct (GenerateName meta =? "")%string, (Namespace meta =? "")%string; simpl;
    repeat split; by simplify_map_eq.
Qed.

(** X8: expanding what [FlattenMetadata] returns gives back the name, the
    generated-name prefix and the namespace of the object and nothing else:
    the flattened annotations and labels are a [map[string]string], which
    [ExpandMetadata] does not read. *)
Theorem ExpandMetadata_of_flattened (meta : ObjectMeta) (d : ResourceData)
    (clients : KubeClientsets) (metaPrefix : list string)
    (configAnnotations configLabels : gomap iface) :
  rd_Get d (hd "" metaPrefix ++ "metadata.0.annotations") = IMap configAnnotations ->
  rd_Get d (hd "" metaPrefix ++ "metadata.0.labels") = IMap configLabels ->
  ignore_list_ok (rd_Get (ConfigData clients) "ignore_annotations") = true ->
  ignore_list_ok (rd_Get (ConfigData clients) "ignore_labels") = true ->
  (flat ← FlattenMetadata meta d (MetaClientsets clients) metaPrefix;
   ExpandMetadata flat)
  = Ret {| Name := Name meta; GenerateName := GenerateName meta;
           Namespace := Namespace meta; ResourceVersion := ""; UID := "";
           Generation := 0; Labels := None; Annotations := None |}.
Proof.
  intros Ha Hl Hia Hil. unfold FlattenMetadata.
  replace (match metaPrefix with p :: _ => p | [] => "" end) with (hd "" metaPrefix)
    by (by destruct metaPrefix).
  rewrite Ha, Hl. simpl.
  unfold ignore_list_ok in *.
  destruct (slice_ok (rd_Get (ConfigData clients) "ignore_annotations")) as [ia|];
    [rewrite (ExpandStringSlice_strings ia Hia)|]; simpl;
    (destruct (slice_ok (rd_Get (ConfigData clients) "ignore_labels")) as [il|];
     [rewrite (ExpandStringSlice_strings il Hil)|]; simpl);
    unfold ExpandMetadata, go_index, go_lookup; simpl;
    destruct (String.eqb_spec (GenerateName meta) "") as [Hg|Hg],
             (String.eqb_spec (Namespace meta) "") as [Hn|Hn]; simpl;
    simplify_map_eq; simpl; by rewrite ?Hg, ?Hn.
Qed.
End FlattenedMetadata.

Lemma FlattenMetadata_fields_witness :
  rd_Get sample_data (hd "" [] ++ "metadata.0.annotations") = IMap sample_config_annotations
  /\ rd_Get sample_data (hd "" [] ++ "metadata.0.labels") = IMap (Some ∅)
  /\ ignore_list_ok (rd_Get (ConfigData sample_clients) "ignore_annotations") = true
  /\ ignore_list_ok (rd_Get (ConfigData sample_clients) "ignore_labels") = true
  /\ exists m : gmap string iface,
      @FlattenMetadata go_net_url string_errors literal_regexp
        sample_meta sample_data (MetaClientsets sample_clients) [] = Ret [IMap (Some m)]
      /\ m !! "name" = Some (IString "web")
      /\ m !! "resource_version" = Some (IString "41")
      /\ m !! "uid" = Some (IString "7d1")
      /\ m !! "generation" = Some (IInt64 2)
      /\ m !! "generate_name" = None
      /\ m !! "namespace" = Some (IString "prod").
Proof.
  repeat (split; [reflexivity|]).
  apply (@FlattenMetadata_fields go_net_url string_errors literal_regexp
           sample_meta sample_data sample_clients [] sample_config_annotations (Some ∅));
    reflexivity.
Defined.

Lemma ExpandMetadata_of_flattened_witness :
  rd_Get sample_data (hd "" [] ++ "metadata.0.annotations") = IMap sample_config_annotations
  /\ rd_Get sample_data (hd "" [] ++ "metadata.0.labels") = IMap (Some ∅)
  /\ ignore_list_ok (rd_Get (ConfigData sample_clients) "ignore_annotations") = true
  /\ ignore_list_ok (rd_Get (ConfigData sample_clients) "ignore_labels") = true
  /\ (flat ← @FlattenMetadata go_net_url string_errors literal_regexp
               sample_meta sample_data (MetaClientsets sample_clients) [];
      ExpandMetadata flat)
     = Ret {| Name := "web"; GenerateName := ""; Namespace := "prod";
              ResourceVersion := ""; UID := ""; Generation := 0;
              Labels := None; Annotations := None |}.
Proof.
  repeat (split; [reflexivity|]).
  apply (@ExpandMetadata_of_flattened go_net_url string_errors literal_regexp
           sample_meta sample_data sample_clients [] sample_config_annotations (Some ∅));
    reflexivity.
Defined.

(** ** Resource lists *)

Section ResourceListFacts.
Context `{QuantityOps}.

(** X10: [ExpandMapToResourceList] returns without error exactly when every
    value is an integer or a string that parses as a quantity; the result then
    has the keys of the input, each with its quantity.  Whatever happens, the
    list it returns only holds converted entries of the input; a nil map
    gives an empty list. *)
Theorem ExpandMapToResourceList_converts (m : gomap iface) :
  ((ExpandMapToResourceList m).2 = None <->
   forall k v, go_lookup m k = Some v -> is_Some (quantity_of v))
  /\ ((ExpandMapToResourceList m).2 = None ->
      forall k, (ExpandMapToResourceList m).1 !! k = go_lookup m k ≫= quantity_of)
  /\ (forall k q, (ExpandMapToResourceList m).1 !! k = Some q ->
                  exists v, go_lookup m k = Some v /\ quantity_of v = Some q)
  /\ ExpandMapToResourceList None = (∅, None).
Proof.
  assert (Hnil : ExpandMapToResourceList None = (∅, None)) by reflexivity.
  destruct m as [g|].
  2: { repeat split; try done; intros k q; simpl; by rewrite lookup_empty. }
  simpl go_lookup.
  pose (P := fun (acc : gmap string Quantity * option error) (m : gmap string iface) =>
       (acc.2 = None <-> forall k v, m !! k = Some v -> is_Some (quantity_of v))
       /\ (acc.2 = None -> forall k, acc.1 !! k = m !! k ≫= quantity_of)
       /\ (forall k q, acc.1 !! k = Some q ->
                       exists v, m !! k = Some v /\ quantity_of v = Some q)).
  assert (Hfold : P (ExpandMapToResourceList (Some g)) g).
  { unfold ExpandMapToResourceList. apply (map_fold_weak_ind P); unfold P.
    - simpl. repeat split; try done; intros k q; by rewrite lookup_empty.
    - intros i x m [out err] Hi (Herr & Hout & Hsub). simpl in *.
      assert (Hkeep : forall k q, out !! k = Some q ->
                exists v, <[i:=x]> m !! k = Some v /\ quantity_of v = Some q).
      { intros k q Hk. destruct (Hsub k q Hk) as (v & Hv & Hq). exists v.
        split; [|exact Hq]. rewrite lookup_insert_ne; [exact Hv|]. congruence. }
      assert (Hbad : quantity_of x = None ->
                ~ forall k v, <[i:=x]> m !! k = Some v -> is_Some (quantity_of v)).
      { intros Hx Hall. destruct (Hall i x (lookup_insert_eq _ _ _)) as [q Hq].
        congruence. }
      destruct err as [err|].
      { simpl. split; [|split; [done|exact Hkeep]].
        split; [done|]. intros Hall. apply Herr. intros k v Hk.
        apply (Hall k v). rewrite lookup_insert_ne; [exact Hk|]. congruence. }
      assert (Hgood : forall q, quantity_of x = Some q ->
                (forall k v, <[i:=x]> m !! k = Some v -> is_Some (quantity_of v))
                /\ (forall k, <[i:=q]> out !! k = <[i:=x]> m !! k ≫= quantity_of)
                /\ (forall k q', <[i:=q]> out !! k = Some q' ->
                      exists v, <[i:=x]> m !! k = Some v /\ quantity_of v = Some q')).
      { intros q Hq. repeat split.
        - intros k v. destruct (decide (k = i)) as [->|Hne].
          + rewrite lookup_insert_eq. intros [= <-]. by eexists.
          + rewrite lookup_insert_ne by done. by apply Herr.
        - intros k. destruct (decide (k = i)) as [->|Hne].
          + by rewrite !lookup_insert_eq.
          + rewrite !lookup_insert_ne by done. by apply Hout.
        - intros k q'. destruct (decide (k = i)) as [->|Hne].
          + rewrite !lookup_insert_eq. intros [= <-]. by exists x.
          + rewrite !lookup_insert_ne by done. apply Hsub. }
      destruct x; simpl;
        try (split; [split; [done|intros Hall; by destruct (Hbad eq_refl)]
                    |split; [done|exact Hkeep]]).
      + destruct (resource_ParseQuantity s) as [q|e] eqn:Hparse; simpl.
        * destruct (Hgood q) as (? & ? & ?); [simpl; by rewrite Hparse|].
          by repeat split.
        * assert (Hx : quantity_of (IString s) = None) by (simpl; by rewrite Hparse).
          split; [split; [done|intros Hall; by destruct (Hbad Hx)]
                 |split; [done|exact Hkeep]].
      + destruct (Hgood (resource_NewQuantity z) eq_refl) as (? & ? & ?).
        by repeat split. }
  unfold P in Hfold. destruct Hfold as (Herr & Hout & Hsub).
  split; [exact Herr|]. split; [exact Hout|]. split; [exact Hsub|exact Hnil].
Qed.

Lemma map_fold_all {V} (test : string -> V -> bool) (g : gmap string V) :
  map_fold (fun k v acc => acc && test k v) true g = true <->
  forall k v, g !! k = Some v -> test k v = true.
Proof.
  apply (map_fold_weak_ind
           (fun acc m => acc = true <-> forall k v, m !! k = Some v -> test k v = true)).
  - split; [intros _ k v; by rewrite lookup_empty|done].
  - intros i x m acc Hi IH. rewrite andb_true_iff, IH. split.
    + intros [Hall Hx] k v. destruct (decide (k = i)) as [->|Hne].
      * rewrite lookup_insert_eq. by intros [= <-].
      * rewrite lookup_insert_ne by done. apply Hall.
    + intros Hall. split.
      * intros k v Hk. apply Hall. rewrite lookup_insert_ne; [exact Hk|]. congruence.
      * apply Hall. apply lookup_insert_eq.
Qed.

(** X11: two resource lists are equal for [ResourceListEquals] exactly when
    they have the same keys and the quantities under each key compare as
    equal, in both directions; the test is symmetric and does not tell a nil
    list from an empty one. *)
Theorem ResourceListEquals_same_entries (x y : gomap Quantity) :
  (ResourceListEquals x y = true <->
   (forall k v, go_lookup x k = Some v ->
                exists w, go_lookup y k = Some w /\ Quantity_Cmp v w = 0)
   /\ (forall k w, go_lookup y k = Some w ->
                   exists v, go_lookup x k = Some v /\ Quantity_Cmp w v = 0))
  /\ ResourceListEquals x y = ResourceListEquals y x
  /\ ResourceListEquals None (Some ∅) = true.
Proof.
  assert (Hcov : forall a b : gomap Quantity,
    match a with
    | None => true
    | Some g =>
        map_fold (fun k v acc =>
                    acc && match go_lookup b k with
                           | None => false
                           | Some bValue => Quantity_Cmp v bValue =? 0
                           end) true g
    end = true <->
    forall k v, go_lookup a k = Some v ->
                exists w, go_lookup b k = Some w /\ Quantity_Cmp v w = 0).
  { intros a b. destruct a as [g|]; simpl; [|split; [intros _ k v; discriminate|done]].
    rewrite (map_fold_all (fun k v => match go_lookup b k with
                                      | None => false
                                      | Some bValue => Quantity_Cmp v bValue =? 0
                                      end)).
    split; intros Hall k v Hk; specialize (Hall k v Hk).
    - destruct (go_lookup b k) as [w|]; [|discriminate]. exists w.
      split; [reflexivity|]. by apply Z.eqb_eq.
    - destruct Hall as (w & -> & Hcmp). by apply Z.eqb_eq. }
  split; [|split].
  - unfold ResourceListEquals. rewrite andb_true_iff, !Hcov. reflexivity.
  - unfold ResourceListEquals. apply andb_comm.
  - reflexivity.
Qed.

Lemma expand_limit_of_flattened (isNew : bool) (i : nat) (type : string)
    (default_ defaultRequest max ratio min : gomap string) :
  expand_limit isNew i
    (IMap (Some (<["type" := IString type]>
                   (<["min" := IStringMap min]>
                      (<["max_limit_request_ratio" := IStringMap ratio]>
                         (<["max" := IStringMap max]>
                            (<["default_request" := IStringMap defaultRequest]>
                               (<["default" := IStringMap default_]> ∅))))))))
  = Panic.
Proof.
  unfold expand_limit, expand_default_request, go_lookup. simpl.
  by simplify_map_eq.
Qed.

(** X12: [ExpandLimitRangeSpec] does not read back what
    [FlattenLimitRangeSpec] writes.  The flattened resource lists are
    [map[string]string] values, on which the assertion of the expander to
    [map[string]interface{}] panics; only a spec without limits, flattened to
    an empty list, expands, to a spec without limits. *)
Theorem ExpandLimitRangeSpec_of_flattened (in_ : LimitRangeSpec) (isNew : bool) :
  ExpandLimitRangeSpec (FlattenLimitRangeSpec in_) isNew
  = match Limits in_ with
    | [] => Ret ({| Limits := [] |}, None)
    | _ :: _ => Panic
    end.
Proof.
  unfold FlattenLimitRangeSpec. destruct (Limits in_) as [|l ls]; [reflexivity|].
  rewrite fill_pure_map. cbn [length Nat.eqb map].
  unfold ExpandLimitRangeSpec. cbn [length Nat.ltb Nat.leb nth].
  unfold assert_map. cbn [mbind outcome_bind].
  unfold go_index. cbn [go_lookup]. rewrite lookup_singleton_eq.
  cbn [default from_option id slice_ok expand_limits].
  rewrite expand_limit_of_flattened. reflexivity.
Qed.
End ResourceListFacts.

Example ExpandMapToResourceList_sample :
  @ExpandMapToResourceList string_errors decimal_quantities
    (Some {[ "cpu" := IString "2"; "memory" := IInt 4 ]})
  = ({[ "cpu" := 2; "memory" := 4 ]}, None)
  /\ (@ExpandMapToResourceList string_errors decimal_quantities
        (Some {[ "cpu" := IBool true ]})).2
     = Some ("Unexpected value type: %#v" : @error string_errors).
Proof. split; vm_compute; reflexivity. Qed.

Example ResourceListEquals_sample :
  @ResourceListEquals _ _ decimal_quantity_ops
    (Some {[ "cpu" := 2 ]}) (Some {[ "cpu" := 2; "memory" := 4 ]}) = false
  /\ @ResourceListEquals _ _ decimal_quantity_ops
       (Some {[ "cpu" := 2; "memory" := 4 ]}) (Some {[ "memory" := 4; "cpu" := 2 ]}) = true.
Proof. split; vm_compute; reflexivity. Qed.

(** ** Object references *)



(** A loop that rebuilds every element it reads returns the list it reads. *)
Lemma outcome_imap_round_trip {A B} (f : A -> outcome B) (g : B -> A) (l : list B) :
  (forall x, x ∈ l -> f (g x) = Ret x) ->
  forall i, outcome_imap (fun _ => f) i (map g l) = Ret l.
Proof.
  intros Hfg i. apply (outcome_imap_ret f).
  induction l as [|x l IH]; constructor.
  - apply Hfg. by left.
  - apply IH. intros y Hy. apply Hfg. by right.
Qed.

(** X13: expanding a flattened list of local object references gives the
    list back (nil and empty lists identified), names that are empty
    included: they are flattened to a map without name and expanded to the
    empty name. *)
Theorem ExpandLocalObjectReferenceArray_of_flattened (in_ : list LocalObjectReference) :
  ExpandLocalObjectReferenceArray (FlattenLocalObjectReferenceArray in_) = Ret in_.
Proof.
  unfold FlattenLocalObjectReferenceArray, ExpandLocalObjectReferenceArray.
  rewrite fill_pure_map. destruct in_ as [|v in_]; [reflexivity|].
  change (length (map _ (v :: in_)) <? 1)%nat with false. cbv iota.
  rewrite fill_by_index_imap.
  apply (outcome_imap_round_trip
           (fun c => p ← assert_map c;
                     match go_lookup p "name" with
                     | Some name => n ← assert_string name; Ret {| lor_Name := n |}
                     | None => Ret {| lor_Name := "" |}
                     end)).
  intros [name] _. simpl.
  destruct (String.eqb_spec name "") as [->|Hne]; simpl; by simplify_map_eq.
Qed.

Lemma FlattenServiceAccountSecrets_from (defaultSecretName : string)
    (in_ : list ObjectReference) :
  forall att : list iface,
    foldl (fun att v =>
             if String.eqb (or_Name v) defaultSecretName then att
             else
               let m : gmap string iface := ∅ in
               let m := if negb (String.eqb (or_Name v) "")
                        then <["name" := IString (or_Name v)]> m else m in
               (att ++ [IMap (Some m)])%list) att in_
    = (att ++ map (fun n => IMap (Some (if negb (String.eqb n "")
                                        then {[ "name" := IString n ]} else ∅)))
                  (filter (fun n => n <> defaultSecretName) (map or_Name in_)))%list.
Proof.
  induction in_ as [|v in_ IH]; intros att; simpl; [by rewrite app_nil_r|].
  rewrite IH. destruct (String.eqb_spec (or_Name v) defaultSecretName) as [Heq|Hne].
  - by rewrite filter_cons_False by (by intros ?).
  - rewrite filter_cons_True by done. simpl. rewrite <- app_assoc. simpl.
    by destruct (or_Name v =? "")%string.
Qed.

Lemma ExpandServiceAccountSecrets_from (names : list string) :
  forall att : list ObjectReference,
    foldl (fun acc c =>
             att ← acc;
             p ← assert_map c;
             match go_lookup p "name" with
             | Some name =>
                 n ← assert_string name;
                 Ret (att ++ [ObjectReference_named n])%list
             | None => Ret att
             end) (Ret att)
          (map (fun n => IMap (Some (if negb (String.eqb n "")
                                     then {[ "name" := IString n ]} else ∅))) names)
    = Ret (att ++ map ObjectReference_named (filter (fun n => n <> "") names))%list.
Proof.
  induction names as [|n names IH]; intros att; simpl; [by rewrite app_nil_r|].
  destruct (String.eqb_spec n "") as [->|Hne]; simpl.
  - rewrite lookup_empty. rewrite IH. by rewrite filter_cons_False by (by intros ?).
  - rewrite lookup_singleton_eq. simpl. rewrite IH.
    rewrite filter_cons_True by done. simpl. by rewrite <- app_assoc.
Qed.

Lemma FlattenServiceAccountSecrets_filter (in_ : list ObjectReference)
    (defaultSecretName : string) :
  FlattenServiceAccountSecrets in_ defaultSecretName
  = map (fun n => IMap (Some (if negb (String.eqb n "")
                              then {[ "name" := IString n ]} else ∅)))
        (filter (fun n => n <> defaultSecretName) (map or_Name in_)).
Proof. exact (FlattenServiceAccountSecrets_from defaultSecretName in_ []). Qed.

Lemma ExpandServiceAccountSecrets_names (names : list string)
    (defaultSecretName : string) :
  ExpandServiceAccountSecrets
    (map (fun n => IMap (Some (if negb (String.eqb n "")
                               then {[ "name" := IString n ]} else ∅))) names)
    defaultSecretName
  = Ret (map ObjectReference_named (filter (fun n => n <> "") names)
         ++ (if String.eqb defaultSecretName "" then []
             else [ObjectReference_named defaultSecretName]))%list.
Proof.
  unfold ExpandServiceAccountSecrets.
  trans (att ← Ret (map ObjectReference_named (filter (fun n => n <> "") names));
         if negb (String.eqb defaultSecretName "")
         then Ret (att ++ [ObjectReference_named defaultSecretName])%list
         else Ret att).
  - f_equal. exact (ExpandServiceAccountSecrets_from names []).
  - simpl. destruct (defaultSecretName =? "")%string; simpl; [|reflexivity].
    by rewrite app_nil_r.
Qed.

(** X14: the flattened secrets of a service account never hold its default
    secret, and expanding them gives, in order, the names of the secrets that
    are neither the default one nor empty, followed by the default secret when
    it has a name; nothing but the names is carried over. *)
Theorem ExpandServiceAccountSecrets_of_flattened (in_ : list ObjectReference)
    (defaultSecretName : string) :
  (IString defaultSecretName
     ∉ omap (fun c => map_ok c ≫= (fun p => go_lookup p "name"))
            (FlattenServiceAccountSecrets in_ defaultSecretName))
  /\ ExpandServiceAccountSecrets
       (FlattenServiceAccountSecrets in_ defaultSecretName) defaultSecretName
     = Ret (map ObjectReference_named
              (filter (fun n => n <> "")
                 (filter (fun n => n <> defaultSecretName) (map or_Name in_)))
            ++ (if String.eqb defaultSecretName "" then []
                else [ObjectReference_named defaultSecretName]))%list.
Proof.
  rewrite FlattenServiceAccountSecrets_filter. split.
  - intros Hin. apply list_elem_of_omap in Hin as (c & Hc & Hname).
    apply list_elem_of_fmap in Hc as (n & -> & Hn).
    apply list_elem_of_filter in Hn as [Hne _]. simpl in Hname.
    destruct (String.eqb_spec n "") as [->|Hn']; simpl in Hname.
    + by rewrite lookup_empty in Hname.
    + rewrite lookup_singleton_eq in Hname. congruence.
  - apply ExpandServiceAccountSecrets_names.
Qed.

Example ExpandServiceAccountSecrets_sample :
  ExpandServiceAccountSecrets
    (FlattenServiceAccountSecrets
       [ObjectReference_named "registry"; ObjectReference_named "default-token-x";
        ObjectReference_named ""; ObjectReference_named "backup"]
       "default-token-x") "default-token-x"
  = Ret [ObjectReference_named "registry"; ObjectReference_named "backup";
         ObjectReference_named "default-token-x"].
Proof. vm_compute. reflexivity. Qed.

(** ** Requirement lists, read back *)

Section RequirementLists.
Context `{SchemaSets}.


End RequirementLists.



(** ** Waiting for the default service account, in full *)

Section RetryOutcome.
Context `{ApiErrors} `{!RetryTimeout}.

Lemma retry_loop_succeeds (f : nat -> option RetryError) (attempts : nat) :
  forall (start : nat) (resultErr : option error),
    retry_loop attempts f start resultErr = None <->
    exists n, (n < attempts)%nat /\ f (start + n)%nat = None
              /\ forall i, (i < n)%nat ->
                           exists rerr, f (start + i)%nat = Some rerr
                                        /\ Retryable rerr = true.
Proof.
  induction attempts as [|attempts IH]; intros start resultErr; simpl.
  - split; [by destruct resultErr|]. intros (n & Hn & _). lia.
  - destruct (f start) as [rerr|] eqn:Hf.
    + destruct (Retryable rerr) eqn:Hretry.
      * rewrite IH. split.
        -- intros (n & Hn & Hnone & Hpre). exists (S n). split; [lia|].
           split; [by replace (start + S n)%nat with (S start + n)%nat by lia|].
           intros i Hi. destruct i as [|i].
           ++ rewrite Nat.add_0_r. by exists rerr.
           ++ replace (start + S i)%nat with (S start + i)%nat by lia.
              apply Hpre. lia.
        -- intros (n & Hn & Hnone & Hpre). destruct n as [|n].
           ++ rewrite Nat.add_0_r in Hnone. congruence.
           ++ exists n. split; [lia|].
              split; [by replace (S start + n)%nat with (start + S n)%nat by lia|].
              intros i Hi. replace (S start + i)%nat with (start + S i)%nat by lia.
              apply Hpre. lia.
      * split; [discriminate|]. intros (n & Hn & Hnone & Hpre). destruct n as [|n].
        -- rewrite Nat.add_0_r in Hnone. congruence.
        -- destruct (Hpre 0%nat) as (r & Hr & Hrr); [lia|].
           rewrite Nat.add_0_r in Hr. congruence.
    + split; [|done]. intros _. exists 0%nat. split; [lia|].
      split; [by rewrite Nat.add_0_r|]. intros i Hi. lia.
Qed.

(** X17: the wait for the default service account ends without error exactly
    when, within the attempts that fit in the timeout, some [Get] succeeds
    and every [Get] before it failed with NotFound.  In every other run it
    returns an error; in particular it does when the account never appears. *)
Theorem defaultServiceAccount_wait_succeeds (attempts : nat)
    (gets : nat -> ServiceAccount + error) :
  (defaultServiceAccountCreate_wait attempts gets = None <->
   exists n sa, (n < attempts)%nat /\ gets n = inl sa
                /\ forall i, (i < n)%nat ->
                             exists err, gets i = inr err
                                         /\ errors_IsNotFound err = true)
  /\ ((forall n, exists err, gets n = inr err) ->
      exists err, defaultServiceAccountCreate_wait attempts gets = Some err).
Proof.
  assert (Hiff : defaultServiceAccountCreate_wait attempts gets = None <->
    exists n sa, (n < attempts)%nat /\ gets n = inl sa
                 /\ forall i, (i < n)%nat ->
                              exists err, gets i = inr err
                                          /\ errors_IsNotFound err = true).
  { unfold defaultServiceAccountCreate_wait, resource_RetryContext.
    rewrite retry_loop_succeeds. simpl. split.
    - intros (n & Hn & Hnone & Hpre). exists n.
      destruct (gets n) as [sa|err] eqn:Hget;
        [|simpl in Hnone; by destruct (errors_IsNotFound err)].
      exists sa. split; [exact Hn|]. split; [reflexivity|].
      intros i Hi. destruct (Hpre i Hi) as (rerr & Hr & Hretry).
      destruct (gets i) as [sa'|err]; [discriminate|]. exists err.
      split; [reflexivity|]. simpl in Hr.
      destruct (errors_IsNotFound err); [reflexivity|].
      injection Hr as <-. discriminate.
    - intros (n & sa & Hn & Hget & Hpre). exists n. split; [exact Hn|].
      split; [by rewrite Hget|]. intros i Hi.
      destruct (Hpre i Hi) as (err & -> & Hnf). simpl. rewrite Hnf. by eexists. }
  split; [exact Hiff|]. intros Hnever.
  destruct (defaultServiceAccountCreate_wait attempts gets) as [err|] eqn:Hwait;
    [by exists err|].
  destruct (proj1 Hiff eq_refl) as (n & sa & _ & Hget & _).
  destruct (Hnever n) as [err Herr]. congruence.
Qed.
End RetryOutcome.

Lemma defaultServiceAccount_wait_succeeds_witness :
  let gets := fun _ : nat => inr ("not found" : @error string_errors) in
  (forall n : nat, exists err, gets n = (inr err : ServiceAccount + @error string_errors))
  /\ exists err, @defaultServiceAccountCreate_wait _ text_api_errors text_timeout 4 gets
                 = Some err.
Proof.
  intros gets.
  assert (Hnever : forall n : nat,
            exists err, gets n = (inr err : ServiceAccount + @error string_errors))
    by (intros n; by eexists).
  split; [exact Hnever|].
  exact (proj2 (@defaultServiceAccount_wait_succeeds string_errors text_api_errors
                  text_timeout 4 gets) Hnever).
Defined.

(** ** Expanded metadata *)

Lemma ExpandMetadata_string_map (v : gomap iface) (r : gomap string) :
  match map_ok (IMap v) with
  | Some v => if (0 <? go_len v)%nat
              then (g ← ExpandStringMap v; Ret (Some g))
              else Ret None
  | None => Ret None
  end = Ret r ->
  r <> Some ∅
  /\ forall k s, go_lookup r k = Some s -> go_lookup v k = Some (IString s).
Proof.
  simpl. destruct (0 <? go_len v)%nat eqn:Hlen; [|by intros [= <-]].
  destruct v as [g|]; [|discriminate]. simpl in Hlen.
  pose proof (ExpandStringMap_cases g) as Hcases.
  destruct (ExpandStringMap (Some g)) as [r'|]; [|discriminate].
  destruct Hcases as [Hall ->]. intros [= <-]. split.
  - intros [= Hempty]. apply fmap_empty_inv in Hempty. subst g.
    rewrite map_size_empty in Hlen. discriminate.
  - intros k s. simpl. rewrite lookup_fmap.
    destruct (g !! k) as [v|] eqn:Hk; [|discriminate]. simpl.
    destruct (Hall k v Hk) as [s' ->]. simpl. by intros [= ->].
Qed.

(** X9: whatever [ExpandMetadata] returns, its annotations and its labels are
    nil or hold at least one entry, never an empty map, and each of their
    entries is a string entry of the [annotations] (or [labels]) attribute of
    the first element of the input; an empty input gives the empty metadata. *)
Theorem ExpandMetadata_maps (in_ : list iface) (meta : ObjectMeta) :
  ExpandMetadata in_ = Ret meta ->
  Annotations meta <> Some ∅
  /\ Labels meta <> Some ∅
  /\ (forall k s, go_lookup (Annotations meta) k = Some s ->
        exists m g, nth 0 in_ INil = IMap m
                    /\ go_lookup m "annotations" = Some (IMap g)
                    /\ go_lookup g k = Some (IString s))
  /\ (forall k s, go_lookup (Labels meta) k = Some s ->
        exists m g, nth 0 in_ INil = IMap m
                    /\ go_lookup m "labels" = Some (IMap g)
                    /\ go_lookup g k = Some (IString s))
  /\ (in_ = [] -> meta = ObjectMeta_zero).
Proof.
  unfold ExpandMetadata. destruct in_ as [|x rest].
  { intros [= <-]. by repeat split. }
  cbn [length Nat.ltb Nat.leb nth]. destruct x as [| | | | |m| | | | |]; try discriminate.
  cbn [assert_map mbind outcome_bind].
  assert (Hfield : forall key (r : gomap string),
    match map_ok (go_index m key) with
    | Some v => if (0 <? go_len v)%nat
                then (g ← ExpandStringMap v; Ret (Some g))
                else Ret None
    | None => Ret None
    end = Ret r ->
    r <> Some ∅
    /\ forall k s, go_lookup r k = Some s ->
         exists g, go_lookup m key = Some (IMap g) /\ go_lookup g k = Some (IString s)).
  { intros key r. unfold go_index.
    destruct (go_lookup m key) as [v|] eqn:Hkey; simpl;
      [destruct v; simpl; try (intros [= <-]; by split)|intros [= <-]; by split].
    intros Hr. destruct (ExpandMetadata_string_map _ _ Hr) as [Hne Hsub].
    split; [exact Hne|]. intros k s Hk. eexists. split; [reflexivity|].
    by apply Hsub. }
  destruct (match map_ok (go_index m "annotations") with
            | Some v => _ | None => _ end) as [annotations|] eqn:Ha; [|discriminate].
  cbn [mbind outcome_bind].
  destruct (match map_ok (go_index m "labels") with
            | Some v => _ | None => _ end) as [labels|] eqn:Hl; [|discriminate].
  cbn [mbind outcome_bind].
  destruct (match go_lookup m "generate_name" with
            | Some v => _ | None => _ end) as [gn|]; [|discriminate].
  cbn [mbind outcome_bind].
  destruct (match go_lookup m "name" with
            | Some v => _ | None => _ end) as [nm|]; [|discriminate].
  cbn [mbind outcome_bind].
  destruct (match go_lookup m "namespace" with
            | Some v => _ | None => _ end) as [ns|]; [|discriminate].
  cbn [mbind outcome_bind]. intros [= <-]. simpl.
  destruct (Hfield _ _ Ha) as [Hane Hasub], (Hfield _ _ Hl) as [Hlne Hlsub].
  split; [exact Hane|]. split; [exact Hlne|].
  split; [intros k s Hk; destruct (Hasub k s Hk) as (g & ? & ?); by exists m, g|].
  split; [intros k s Hk; destruct (Hlsub k s Hk) as (g & ? & ?); by exists m, g|].
  discriminate.
Qed.

Lemma ExpandMetadata_maps_witness :
  let in_ := [IMap (Some {[ "name" := IString "web";
                            "annotations" := IMap (Some ∅);
                            "labels" := IMap (Some {[ "app" := IString "web" ]}) ]})] in
  let meta := {| Name := "web"; GenerateName := ""; Namespace := "";
                 ResourceVersion := ""; UID := ""; Generation := 0;
                 Labels := Some {[ "app" := "web" ]}; Annotations := None |} in
  ExpandMetadata in_ = Ret meta
  /\ Annotations meta <> Some ∅
  /\ Labels meta <> Some ∅.
Proof.
  intros in_ meta.
  assert (Hret : ExpandMetadata in_ = Ret meta) by (vm_compute; reflexivity).
  split; [exact Hret|].
  destruct (ExpandMetadata_maps in_ meta Hret) as (Ha & Hl & _).
  by split.
Defined.

(** ** Resource lists, read back *)

Section ResourceListsReadBack.
Context `{QuantityOps}.

Lemma FlattenResourceList_fmap (g : gmap string Quantity) :
  FlattenResourceList (Some g) = Quantity_String <$> g.
Proof.
  unfold FlattenResourceList.
  apply (map_fold_weak_ind (fun r m => r = Quantity_String <$> m)).
  - by rewrite fmap_empty.
  - intros i x m r Hi ->. by rewrite fmap_insert.
Qed.

Lemma ExpandMapToResourceList_total (g : gmap string iface) :
  (forall k v, g !! k = Some v -> is_Some (quantity_of v)) ->
  ExpandMapToResourceList (Some g) = (omap quantity_of g, None).
Proof.
  unfold ExpandMapToResourceList.
  apply (map_fold_weak_ind
           (fun (acc : gmap string Quantity * option error) (m : gmap string iface) =>
              (forall k v, m !! k = Some v -> is_Some (quantity_of v)) ->
              acc = (omap quantity_of m, None))).
  - intros _. by rewrite omap_empty.
  - intros i x m acc Hi IH Hall.
    rewrite IH by (intros k v Hk; apply (Hall k v);
                   rewrite lookup_insert_ne; [exact Hk|congruence]).
    destruct (Hall i x (lookup_insert_eq _ _ _)) as [q Hq].
    rewrite (omap_insert_Some quantity_of m i x q Hq).
    destruct x; simpl in Hq; try discriminate.
    + revert Hq. destruct (resource_ParseQuantity s); [|discriminate].
      by intros [= ->].
    + by injection Hq as ->.
Qed.

(** X18: a flattened resource list has the keys of the list, each with the
    printed quantity; read back as a map of strings it expands without error
    to the original list, provided every quantity parses back from what it
    prints. *)
Theorem ExpandMapToResourceList_of_flattened (g : gmap string Quantity) :
  (forall k q, g !! k = Some q -> resource_ParseQuantity (Quantity_String q) = inl q) ->
  (forall k, FlattenResourceList (Some g) !! k = Quantity_String <$> g !! k)
  /\ ExpandMapToResourceList (Some (IString <$> FlattenResourceList (Some g)))
     = (g, None).
Proof.
  intros Hparse. rewrite FlattenResourceList_fmap.
  split; [intros k; apply lookup_fmap|].
  rewrite ExpandMapToResourceList_total.
  - f_equal. apply map_eq. intros k. rewrite lookup_omap, !lookup_fmap.
    destruct (g !! k) as [q|] eqn:Hk; simpl; [|reflexivity].
    by rewrite (Hparse k q Hk).
  - intros k v. rewrite !lookup_fmap.
    destruct (g !! k) as [q|] eqn:Hk; simpl; [|discriminate].
    intros [= <-]. simpl. rewrite (Hparse k q Hk). by eexists.
Qed.
End ResourceListsReadBack.

Lemma ExpandMapToResourceList_of_flattened_witness :
  let g : gmap string Z := {[ "cpu" := 2; "memory" := 4096 ]} in
  (forall k q, g !! k = Some q ->
     @resource_ParseQuantity _ decimal_quantities
       (@Quantity_String _ _ decimal_quantity_ops q) = inl q)
  /\ @ExpandMapToResourceList string_errors decimal_quantities
       (Some (IString <$> @FlattenResourceList _ _ decimal_quantity_ops (Some g)))
     = (g, None).
Proof.
  intros g.
  assert (Hparse : forall k q, g !! k = Some q ->
            @resource_ParseQuantity _ decimal_quantities
              (@Quantity_String _ _ decimal_quantity_ops q) = inl q).
  { intros k q Hk. unfold g in Hk.
    apply lookup_insert_Some in Hk as [[_ <-]|[_ Hk]]; [vm_compute; reflexivity|].
    apply lookup_singleton_Some in Hk as [_ <-]. vm_compute. reflexivity. }
  split; [exact Hparse|].
  exact (proj2 (@ExpandMapToResourceList_of_flattened string_errors decimal_quantities
                  decimal_quantity_ops g Hparse)).
Defined.
